(** * solar-dashboard: the cache / refresh / diff engine of [server.js]

    A shallow embedding of the server's snapshot cache, the recording
    duration cache, the change detector, the SSE broadcaster, the leads
    view and the analytics duration histogram, followed by the properties
    established about them.

    Conventions of the embedding
    - JavaScript numbers that the code only uses as integers (timestamps in
      milliseconds, durations in seconds, counts) are [Z].
    - Strings are [string]; [toLowerCase] acts on the ASCII letters.
    - The [Map] objects ([durationCache], [oldMap]) are [gmap string _].
    - The [Set] of SSE clients is a duplicate-free list in insertion order,
      which is the order in which a JavaScript [Set] iterates.
    - An [async] function is cut at its [await]s on I/O: a call runs up to
      the first such [await]; each I/O completion resumes the suspended
      task and runs it (with the promise jobs it triggers) up to the next
      one.  The event loop interleaves the tasks at exactly these points. *)

From Stdlib Require Import ZArith Lia Ascii.
From Stdlib Require OrderedTypeEx.
From stdpp Require Import base decidable option list sorting gmap strings pretty fin_maps.

Local Open Scope Z_scope.

(** ** Values and records *)

(** A cell of an Airtable row, as far as the server looks at it. *)
Inductive value :=
| VNum (n : Z)
| VStr (s : string).

#[global] Instance value_eq_dec : EqDecision value.
Proof. solve_decision. Defined.

(** A row as Airtable returns it: [{ id, fields }]. *)
Record raw_record := RawRecord {
  raw_id : string;
  raw_fields : gmap string value
}.

(** The normalised record built at lines 72-108; [probedDuration] is absent
    ([None]) until line 114 attaches it. *)
Record record := Rec {
  id : string;
  firstName : string;
  lastName : string;
  phone : string;
  email : string;
  address : string;
  city : string;
  state_ : string;
  zip : string;
  status : string;
  callOutcome : string;
  lastCallDate : string;
  recordingUrl : string;
  transcript : string;
  notes : string;
  callDuration : Z;
  attemptCount : Z;
  electricBill : string;
  roofAge : value;
  utilityCompany : string;
  calendarLink : string;
  calculatedDate : string;
  retellCallId : string;
  agentId : string;
  agentName : string;
  createdDate : string;
  lastModified : string;
  daysSinceContact : value;
  source : string;
  rep : string;
  fields : gmap string value;
  probedDuration : option Z
}.

(** [f[k] || ''] on a text column: a missing or empty cell gives [''].
    Airtable types its columns, so a text column never holds a number. *)
Definition text (f : gmap string value) (k : string) : string :=
  match f !! k with
  | Some (VStr s) => s
  | _ => ""
  end.

(** [f[k] || 0] on a number column. *)
Definition number (f : gmap string value) (k : string) : Z :=
  match f !! k with
  | Some (VNum n) => n
  | _ => 0
  end.

(** [f[k] ?? ''] keeps every cell that is present. *)
Definition cell (f : gmap string value) (k : string) : value :=
  match f !! k with
  | Some v => v
  | None => VStr ""
  end.

(** [a || b] on strings. *)
Definition or_str (a b : string) : string :=
  if decide (a = "") then b else a.

Definition AGENT_NAMES (agent : string) : string :=
  if decide (agent = "agent_1e091e25b84ea5d6b51088aaed") then "Rebate Program"
  else if decide (agent = "agent_458529f65d305930d071f2a93e") then "Reduced Energy"
  else "".

Definition normalize (r : raw_record) : record :=
  let f := raw_fields r in
  {| id := raw_id r;
     firstName := text f "First Name";
     lastName := text f "Last Name";
     phone := text f "Phone";
     email := text f "Email";
     address := text f "Address";
     city := text f "City";
     state_ := text f "State";
     zip := text f "Zip";
     status := text f "Status";
     callOutcome := text f "Call Outcome";
     lastCallDate := text f "Last Call Date";
     recordingUrl := or_str (text f "Latest Recording") (text f "Recording URLs");
     transcript := text f "Transcript";
     notes := text f "Notes";
     callDuration := number f "Call Duration";
     attemptCount := number f "Attempt Count";
     electricBill := text f "Electric Bill";
     roofAge := cell f "Roof Age (Years)";
     utilityCompany := text f "Utility Company";
     calendarLink := text f "Calendar Link";
     calculatedDate := text f "Calculated Date";
     retellCallId := text f "Retell Call ID";
     agentId := text f "Agent ID";
     agentName :=
       or_str (AGENT_NAMES (text f "Agent ID"))
              (or_str (text f "Agent ID") "Unknown");
     createdDate := text f "Created Date";
     lastModified := text f "Last Modified";
     daysSinceContact := cell f "Days Since Contact";
     source := text f "Source";
     rep := text f "Rep";
     fields := f;
     probedDuration := None |}.

Definition set_probedDuration (d : Z) (r : record) : record :=
  {| id := id r; firstName := firstName r; lastName := lastName r;
     phone := phone r; email := email r; address := address r;
     city := city r; state_ := state_ r; zip := zip r; status := status r;
     callOutcome := callOutcome r; lastCallDate := lastCallDate r;
     recordingUrl := recordingUrl r; transcript := transcript r;
     notes := notes r; callDuration := callDuration r;
     attemptCount := attemptCount r; electricBill := electricBill r;
     roofAge := roofAge r; utilityCompany := utilityCompany r;
     calendarLink := calendarLink r; calculatedDate := calculatedDate r;
     retellCallId := retellCallId r; agentId := agentId r;
     agentName := agentName r; createdDate := createdDate r;
     lastModified := lastModified r; daysSinceContact := daysSinceContact r;
     source := source r; rep := rep r; fields := fields r;
     probedDuration := Some d |}.

(** [r.probedDuration > 0]: a missing property compares false. *)
Definition positive_duration (r : record) : bool :=
  match probedDuration r with
  | Some d => bool_decide (0 < d)
  | None => false
  end.

(** ** Recording duration cache (lines 20-44) *)

(** What a [HEAD] request comes back with: the promise of [fetch] rejects
    (transport error, or the 5000 ms timeout), or a response arrives with
    its [ok] flag and its [content-length] header, already read as a
    decimal integer ([None] when the header is absent). *)
Inductive head_response :=
| HeadFailed
| HeadAnswer (ok : bool) (content_length : option Z).

(** [Math.round((len - 44) / 48000)]: rounding to nearest, halves up. *)
Definition wav_seconds (len : Z) : Z := (len - 44 + 24000) / 48000.

(** [probeWavDuration] up to its [await] (lines 24-27): it returns at once,
    or it has issued a [HEAD] request for the url. *)
Inductive probe_step :=
| ProbeDone (seconds : Z)
| ProbeHead (url : string).

Definition probeWavDuration_call (url : string) (dc : gmap string Z)
  : probe_step :=
  if decide (url = "") then ProbeDone 0
  else match dc !! url with
       | Some d => ProbeDone d
       | None => ProbeHead url
       end.

(** [probeWavDuration] from the [await] on (lines 27-35): the value the
    promise resolves to and the duration cache it leaves. *)
Definition probeWavDuration_resume (url : string) (resp : head_response)
    (dc : gmap string Z) : Z * gmap string Z :=
  match resp with
  | HeadFailed => (0, dc)
  | HeadAnswer ok cl =>
      if negb ok then (0, dc)
      else
        let len := default 0 cl in
        if bool_decide (len ≤ 44) then (0, dc)
        else
          let dur := wav_seconds len in
          (dur, <[url := dur]> dc)
  end.

(** The filter of line 39. *)
Definition needs_probe (dc : gmap string Z) (r : record) : bool :=
  bool_decide (recordingUrl r ≠ "")
  && bool_decide (callDuration r = 0)
  && bool_decide (dc !! recordingUrl r = None).

Definition toProbe (dc : gmap string Z) (records : list record) : list record :=
  List.filter (needs_probe dc) records.

(** Line 114: [r.callDuration || durationCache.get(r.recordingUrl) || 0]. *)
Definition probed (dc : gmap string Z) (r : record) : Z :=
  let first :=
    if decide (callDuration r = 0) then dc !! recordingUrl r
    else Some (callDuration r) in
  match first with
  | Some v => if decide (v = 0) then 0 else v
  | None => 0
  end.

(** The loop of lines 113-115. *)
Definition attach (dc : gmap string Z) (mapped : list record) : list record :=
  map (λ r, set_probedDuration (probed dc r) r) mapped.

(** ** Change detection and the SSE broadcaster (lines 125-148, 169-174) *)

Inductive sse_event :=
| connected
| new_lead (name : string)
| status_change (name oldStatus newStatus : string)
| appointment_booked (name : string)
| new_call (name outcome : string).

#[global] Instance sse_event_eq_dec : EqDecision sse_event.
Proof. solve_decision. Defined.

(** [nr.firstName + ' ' + nr.lastName] *)
Definition full_name (r : record) : string :=
  firstName r +:+ " " +:+ lastName r.

(** [new Map(oldRecs.map(r => [r.id, r]))]: a later entry with the same key
    replaces an earlier one. *)
Definition put (m : gmap string record) (r : record) : gmap string record :=
  <[id r := r]> m.

Definition oldMap (oldRecs : list record) : gmap string record :=
  foldl put ∅ oldRecs.

(** The body of the loop of line 130 for one new record: the events it
    hands to [broadcast], in order. *)
Definition changes_of (m : gmap string record) (nr : record) : list sse_event :=
  match m !! id nr with
  | None => [new_lead (full_name nr)]
  | Some or =>
      if decide (status or ≠ status nr) then
        status_change (full_name nr) (status or) (status nr)
        :: (if decide (status nr = "Booked" ∧ status or ≠ "Booked")
            then [appointment_booked (full_name nr)] else [])
      else if decide (lastCallDate or ≠ lastCallDate nr) then
        [new_call (full_name nr) (callOutcome nr)]
      else []
  end.

(** [detectChanges]: the sequence of [broadcast] calls it makes.  Its control
    flow does not look at what [broadcast] does, so the calls are listed
    here and performed by [broadcast_all] below. *)
Definition detectChanges (oldRecs newRecs : list record) : list sse_event :=
  let m := oldMap oldRecs in
  flat_map (changes_of m) newRecs.

(** A record that has an id and a status and is empty otherwise, as in the
    examples of the specification. *)
Definition lead (i st : string) : record :=
  Rec i "" "" "" "" "" "" "" "" st "" "" "" "" "" 0 0 "" (VStr "") "" "" "" ""
      "" "" "" "" (VStr "") "" "" ∅ (Some 0).

(** What [client.write] does on a response stream: the frame goes out, or
    the stream discards it (a connection that is gone), or the call
    throws. *)
Inductive write_outcome := Written | Discarded | Raised.

#[global] Instance write_outcome_eq_dec : EqDecision write_outcome.
Proof. solve_decision. Defined.

(** The condition of every response stream; one never mentioned accepts
    writes. *)
Definition socket_of (sockets : gmap nat write_outcome) (c : nat) : write_outcome :=
  default Written (sockets !! c).

(** The frames that reached the clients, oldest first. *)
Definition wire_t := list (nat * sse_event).

(** How a piece of synchronous code ends. *)
Inductive completion := Normal | Thrown.

Definition accepts (sockets : gmap nat write_outcome) (c : nat) : bool :=
  bool_decide (socket_of sockets c = Written).

Definition raises (sockets : gmap nat write_outcome) (c : nat) : bool :=
  bool_decide (socket_of sockets c = Raised).

(** The frames of one event for the clients of [cs] that accept it. *)
Definition frames (sockets : gmap nat write_outcome) (event : sse_event)
    (cs : list nat) : wire_t :=
  map (λ c, (c, event)) (List.filter (accepts sockets) cs).

(** [broadcast]: the loop of line 147 over the set, in insertion order,
    with no handler around [client.write]. *)
Fixpoint broadcast (sockets : gmap nat write_outcome) (event : sse_event)
    (clients : list nat) (wire : wire_t) : wire_t * completion :=
  match clients with
  | [] => (wire, Normal)
  | c :: rest =>
      match socket_of sockets c with
      | Written => broadcast sockets event rest (wire ++ [(c, event)])
      | Discarded => broadcast sockets event rest wire
      | Raised => (wire, Thrown)
      end
  end.

(** The calls of [detectChanges] one after the other; an exception leaves
    the loop of line 130. *)
Fixpoint broadcast_all (sockets : gmap nat write_outcome) (events : list sse_event)
    (clients : list nat) (wire : wire_t) : wire_t * completion :=
  match events with
  | [] => (wire, Normal)
  | e :: rest =>
      match broadcast sockets e clients wire with
      | (wire', Normal) => broadcast_all sockets rest clients wire'
      | (wire', Thrown) => (wire', Thrown)
      end
  end.

(** ** The snapshot cache and [fetchAllRecords] (lines 46-123, 150-153) *)

Record cache_t := Cache {
  records : option (list record);
  raw : option (list raw_record);
  ts : Z
}.

Definition CACHE_TTL : Z := 20000.

(** Line 52: [cache.records && now - cache.ts < CACHE_TTL]; an array, even an
    empty one, is truthy. *)
Definition fresh (c : cache_t) (now : Z) : option (list record) :=
  match records c with
  | Some recs => if bool_decide (now - ts c < CACHE_TTL) then Some recs else None
  | None => None
  end.

Inductive error :=
| AirtableError (status : Z) (body : string)
| FetchFailed
| WriteRaised.

(** What a page request comes back with: the promise of [fetch] (or of
    [res.json()]) rejects; or the response is not [ok]; or it carries
    [data.records] and [data.offset] (['']: no further page). *)
Inductive page_response :=
| PageFailed
| PageNotOk (status : Z) (body : string)
| PageOk (recs : list raw_record) (offset : string).

(** A call of [fetchAllRecords], at rest: suspended at the [await] of line 65
    or at the one of line 111 (with the probes of line 42 still out), or
    settled. *)
Inductive task :=
| AwaitPage (now : Z) (allRecords : list raw_record)
| AwaitProbes (now : Z) (allRecords : list raw_record) (mapped : list record)
    (pending : list (option string))
| Resolved (result : list record)
| Rejected (e : error).

(** Requests sent upstream: a page of the table (with its [offset]
    parameter, [''] for the first page) or the [HEAD] of a recording. *)
Inductive request :=
| GetPage (offset : string)
| Head (url : string).

#[global] Instance request_eq_dec : EqDecision request.
Proof. solve_decision. Defined.

(** The module-level state of the process, the tasks in flight, and a
    record of what went out: [net] lists the upstream requests, [wire] the
    frames written to SSE clients. *)
Record server := Server {
  cache : cache_t;
  durationCache : gmap string Z;
  sseClients : list nat;
  sockets : gmap nat write_outcome;
  wire : wire_t;
  tasks : list task;
  net : list request
}.

Definition with_cache (c : cache_t) (s : server) : server :=
  Server c (durationCache s) (sseClients s) (sockets s) (wire s) (tasks s) (net s).
Definition with_durationCache (d : gmap string Z) (s : server) : server :=
  Server (cache s) d (sseClients s) (sockets s) (wire s) (tasks s) (net s).
Definition with_sseClients (cs : list nat) (s : server) : server :=
  Server (cache s) (durationCache s) cs (sockets s) (wire s) (tasks s) (net s).
Definition with_sockets (k : gmap nat write_outcome) (s : server) : server :=
  Server (cache s) (durationCache s) (sseClients s) k (wire s) (tasks s) (net s).
Definition with_wire (w : wire_t) (s : server) : server :=
  Server (cache s) (durationCache s) (sseClients s) (sockets s) w (tasks s) (net s).
Definition with_tasks (ts : list task) (s : server) : server :=
  Server (cache s) (durationCache s) (sseClients s) (sockets s) (wire s) ts (net s).
Definition send (rs : list request) (s : server) : server :=
  Server (cache s) (durationCache s) (sseClients s) (sockets s) (wire s) (tasks s)
         (net s ++ rs).

Definition set_task (t : nat) (k : task) (s : server) : server :=
  with_tasks (<[t := k]> (tasks s)) s.

(** Lines 113-122, which run without interruption once the probes are in:
    attach the durations, swap the cache, report the changes, return. *)
Definition commit (t : nat) (now : Z) (allRecords : list raw_record)
    (mapped : list record) (s : server) : server :=
  let mapped' := attach (durationCache s) mapped in
  let prev := records (cache s) in
  let s1 := with_cache (Cache (Some mapped') (Some allRecords) now) s in
  match prev with
  | Some p =>
      match broadcast_all (sockets s1) (detectChanges p mapped')
                          (sseClients s1) (wire s1) with
      | (w, Normal) => set_task t (Resolved mapped') (with_wire w s1)
      | (w, Thrown) => set_task t (Rejected WriteRaised) (with_wire w s1)
      end
  | None => set_task t (Resolved mapped') s1
  end.

(** The probes of line 42 that are still out. *)
Definition all_in (pending : list (option string)) : bool :=
  forallb (λ p, bool_decide (p = None)) pending.

Definition heads (starts : list probe_step) : list request :=
  omap (λ st, match st with ProbeHead u => Some (Head u) | ProbeDone _ => None end)
       starts.

Definition pending_of (starts : list probe_step) : list (option string) :=
  map (λ st, match st with ProbeHead u => Some u | ProbeDone _ => None end) starts.

(** Lines 72-111: normalise, then [probeAllDurations]: every record of
    [toProbe] gets its [probeWavDuration] call, all started before any
    answer is looked at. *)
Definition after_pages (t : nat) (now : Z) (allRecords : list raw_record)
    (s : server) : server :=
  let mapped := map normalize allRecords in
  let starts :=
    map (λ r, probeWavDuration_call (recordingUrl r) (durationCache s))
        (toProbe (durationCache s) mapped) in
  let pending := pending_of starts in
  if all_in pending then commit t now allRecords mapped s
  else set_task t (AwaitProbes now allRecords mapped pending) (send (heads starts) s).

(** Lines 51-65: a call of [fetchAllRecords] up to its first [await]. *)
Definition fetchAllRecords_call (now : Z) (s : server) : server :=
  match fresh (cache s) now with
  | Some recs => with_tasks (tasks s ++ [Resolved recs]) s
  | None => send [GetPage ""] (with_tasks (tasks s ++ [AwaitPage now []]) s)
  end.

(** Lines 65-70: the answer to the page request of a suspended call. *)
Definition fetchAllRecords_page (t : nat) (now : Z) (allRecords : list raw_record)
    (resp : page_response) (s : server) : server :=
  match resp with
  | PageFailed => set_task t (Rejected FetchFailed) s
  | PageNotOk status body => set_task t (Rejected (AirtableError status body)) s
  | PageOk recs offset =>
      let allRecords' := allRecords ++ recs in
      if decide (offset = "") then after_pages t now allRecords' s
      else set_task t (AwaitPage now allRecords') (send [GetPage offset] s)
  end.

(** The answer to the [i]-th probe of a call suspended at line 111. *)
Definition fetchAllRecords_head (t : nat) (now : Z) (allRecords : list raw_record)
    (mapped : list record) (pending : list (option string)) (i : nat)
    (resp : head_response) (s : server) : server :=
  match pending !! i with
  | Some (Some url) =>
      let '(_, dc) := probeWavDuration_resume url resp (durationCache s) in
      let s1 := with_durationCache dc s in
      let pending' := <[i := None]> pending in
      if all_in pending' then commit t now allRecords mapped s1
      else set_task t (AwaitProbes now allRecords mapped pending') s1
  | _ => s
  end.

(** What happens to the process, one event-loop turn at a time. *)
Inductive event :=
| Call (now : Z)
| PageArrives (t : nat) (resp : page_response)
| HeadArrives (t : nat) (i : nat) (resp : head_response)
| Invalidate
| Subscribe (c : nat)
| Close (c : nat)
| Socket (c : nat) (o : write_outcome).

Definition step (s : server) (e : event) : server :=
  match e with
  | Call now => fetchAllRecords_call now s
  | PageArrives t resp =>
      match tasks s !! t with
      | Some (AwaitPage now allRecords) => fetchAllRecords_page t now allRecords resp s
      | _ => s
      end
  | HeadArrives t i resp =>
      match tasks s !! t with
      | Some (AwaitProbes now allRecords mapped pending) =>
          fetchAllRecords_head t now allRecords mapped pending i resp s
      | _ => s
      end
  | Invalidate =>
      with_cache (Cache (records (cache s)) (raw (cache s)) 0) s
  | Subscribe c =>
      (* lines 170-172: the greeting goes to the new client alone, then
         [sseClients.add(res)], which leaves a member where it is *)
      let add s1 :=
        if decide (c ∈ sseClients s1) then s1
        else with_sseClients (sseClients s1 ++ [c]) s1 in
      match socket_of (sockets s) c with
      | Written => add (with_wire (wire s ++ [(c, connected)]) s)
      | Discarded => add s
      | Raised => s
      end
  | Close c =>
      with_sseClients (List.filter (λ x, bool_decide (x ≠ c)) (sseClients s)) s
  | Socket c o => with_sockets (<[c := o]> (sockets s)) s
  end.

Definition run (s : server) (events : list event) : server :=
  foldl step s events.

(** The process as it starts: nothing cached (line 47), no client. *)
Definition boot : server :=
  Server (Cache None None 0) ∅ [] ∅ [] [] [].

(** Upstream fetches begun: each pass through the loop of line 56 opens with
    the one request that has no [offset]. *)
Definition fetches (s : server) : nat :=
  length (List.filter (λ r, bool_decide (r = GetPage "")) (net s)).

(** ** The leads view: [GET /api/leads] (lines 177-270) *)

(** A JavaScript number that may be [NaN], for what [parseInt] returns. *)
Inductive num := NaN | Num (z : Z).

(** The query after the destructuring of line 180: an absent text parameter
    is [''], [sort] and [dir] carry their defaults, and the numeric
    parameters are what [parseInt] made of them ([q_minDuration] is [None]
    when the parameter is absent or empty). *)
Record query := Query {
  q_search : string;
  q_status : string;
  q_outcome : string;
  q_agent : string;
  q_dateFrom : string;
  q_dateTo : string;
  q_minDuration : option num;
  q_page : num;
  q_limit : num;
  q_sort : string;
  q_dir : string
}.

(** What the handler reads off the clock: [today], [yesterday], the seven
    days of the trend (six days ago first) and the time stamp of the
    response. *)
Record clock := Clock {
  today : string;
  yesterday : string;
  week : list string;
  nowIso : string
}.

Definition lower (a : ascii) : ascii :=
  let n := nat_of_ascii a in
  if bool_decide (65 ≤ n ≤ 90)%nat then ascii_of_nat (n + 32) else a.

Fixpoint toLowerCase (s : string) : string :=
  match s with
  | EmptyString => EmptyString
  | String a s' => String (lower a) (toLowerCase s')
  end.

(** [s.includes(q)] *)
Fixpoint includes (s q : string) : bool :=
  String.prefix q s ||
  match s with
  | EmptyString => false
  | String _ s' => includes s' q
  end.

(** [s.split(c)] for a one-character separator. *)
Fixpoint split (c : ascii) (s : string) : list string :=
  match s with
  | EmptyString => [EmptyString]
  | String a s' =>
      if Ascii.eqb a c then EmptyString :: split c s'
      else match split c s' with
           | h :: t => String a h :: t
           | [] => [String a EmptyString]
           end
  end.

Definition member (x : string) (l : list string) : bool := bool_decide (x ∈ l).

(** [r.lastCallDate.split('T')[0]] *)
Definition day_of (r : record) : string :=
  hd "" (split "T" (lastCallDate r)).

(** [a[sortKey] ?? ''].  The [fields] property is an object; the comparator
    only asks whether a value is a number and what [String] makes of it, so
    it stands here as that string.  A key the record does not have reads
    [undefined] and so gives ['']. *)
Definition property (sortKey : string) (r : record) : value :=
  let str s := VStr s in
  if decide (sortKey = "id") then str (id r)
  else if decide (sortKey = "firstName") then str (firstName r)
  else if decide (sortKey = "lastName") then str (lastName r)
  else if decide (sortKey = "phone") then str (phone r)
  else if decide (sortKey = "email") then str (email r)
  else if decide (sortKey = "address") then str (address r)
  else if decide (sortKey = "city") then str (city r)
  else if decide (sortKey = "state") then str (state_ r)
  else if decide (sortKey = "zip") then str (zip r)
  else if decide (sortKey = "status") then str (status r)
  else if decide (sortKey = "callOutcome") then str (callOutcome r)
  else if decide (sortKey = "lastCallDate") then str (lastCallDate r)
  else if decide (sortKey = "recordingUrl") then str (recordingUrl r)
  else if decide (sortKey = "transcript") then str (transcript r)
  else if decide (sortKey = "notes") then str (notes r)
  else if decide (sortKey = "callDuration") then VNum (callDuration r)
  else if decide (sortKey = "attemptCount") then VNum (attemptCount r)
  else if decide (sortKey = "electricBill") then str (electricBill r)
  else if decide (sortKey = "roofAge") then roofAge r
  else if decide (sortKey = "utilityCompany") then str (utilityCompany r)
  else if decide (sortKey = "calendarLink") then str (calendarLink r)
  else if decide (sortKey = "calculatedDate") then str (calculatedDate r)
  else if decide (sortKey = "retellCallId") then str (retellCallId r)
  else if decide (sortKey = "agentId") then str (agentId r)
  else if decide (sortKey = "agentName") then str (agentName r)
  else if decide (sortKey = "createdDate") then str (createdDate r)
  else if decide (sortKey = "lastModified") then str (lastModified r)
  else if decide (sortKey = "daysSinceContact") then daysSinceContact r
  else if decide (sortKey = "source") then str (source r)
  else if decide (sortKey = "rep") then str (rep r)
  else if decide (sortKey = "fields") then str "[object Object]"
  else if decide (sortKey = "probedDuration") then
    match probedDuration r with Some d => VNum d | None => str "" end
  else str "".

(** [String(v)] *)
Definition String_ (v : value) : string :=
  match v with
  | VNum n => pretty n
  | VStr s => s
  end.

(** [Math.round(sum / n)] for [n > 0]. *)
Definition round_div (sum n : Z) : Z := (2 * sum + n) / (2 * n).

(** A number formatted by [toFixed(1)], kept as the quotient it formats:
    [ToFixed1 a b k] is [((a / b) * k).toFixed(1)]. *)
Inductive fixed1 :=
| Literal (s : string)
| ToFixed1 (a b k : Z).

Record stats := Stats {
  bookedToday : nat;
  bookedYesterday : nat;
  readyToCall : nat;
  needsRetry : nat;
  callbacksScheduled : nat;
  currentlyCalling : nat;
  totalCallsToday : nat;
  totalCallsYesterday : nat;
  conversionRate : fixed1;
  totalBooked : nat;
  totalContacted : nat;
  avgDuration : Z;
  avgAttemptsToBook : fixed1;
  callsTrend : list nat;
  bookedTrend : list nat;
  trendDays : list string
}.

Definition how_many (p : record → bool) (all : list record) : nat :=
  length (List.filter p all).

Definition is_status (st : string) (r : record) : bool :=
  bool_decide (status r = st).

Definition called (r : record) : bool := bool_decide (lastCallDate r ≠ "").

(** Lines 235-239: one zeroed entry per day of the trend. *)
Definition trends_init (days : list string) : gmap string (nat * nat) :=
  foldl (λ m d, <[d := (0%nat, 0%nat)]> m) ∅ days.

(** Lines 240-244, for one record. *)
Definition trends_count (m : gmap string (nat * nat)) (r : record)
  : gmap string (nat * nat) :=
  if decide (lastCallDate r = "") then m
  else
    let d := day_of r in
    match m !! d with
    | Some (calls, booked) =>
        <[d := (S calls, if is_status "Booked" r then S booked else booked)]> m
    | None => m
    end.

(** Insertion of [x] into a list sorted by [cmp], after the elements that
    compare below it and before those that compare equal or above. *)
Fixpoint insert_by {A} (cmp : A → A → Z) (x : A) (l : list A) : list A :=
  match l with
  | [] => [x]
  | y :: l' => if bool_decide (cmp x y ≤ 0) then x :: l else y :: insert_by cmp x l'
  end.

(** [Array.prototype.sort(cmp)]: the language requires a stable sort, which
    fixes the result for every consistent comparator; this is the stable
    insertion sort. *)
Fixpoint sort {A} (cmp : A → A → Z) (l : list A) : list A :=
  match l with
  | [] => []
  | x :: l' => insert_by cmp x (sort cmp l')
  end.

(** The comparator of [sort()] without argument, on strings: code units. *)
Definition code_units (a b : string) : Z :=
  match String.compare a b with
  | Lt => -1
  | Eq => 0
  | Gt => 1
  end.

(** [[...new Set(l.filter(Boolean))].sort()] *)
Definition options (l : list string) : list string :=
  sort code_units (remove_dups (List.filter (λ s, bool_decide (s ≠ "")) l)).

(** Lines 211-245 and the [stats] object of the response. *)
Definition computeStats (all : list record) (clk : clock) : stats :=
  let booked_on day :=
    how_many (λ r, is_status "Booked" r && String.prefix day (lastCallDate r)) all in
  let calls_on day :=
    how_many (λ r, called r && String.prefix day (lastCallDate r)) all in
  let totalContacted := how_many called all in
  let totalBooked := how_many (is_status "Booked") all in
  let durations :=
    omap (λ r, if positive_duration r then probedDuration r else None) all in
  let bookedLeads :=
    List.filter (λ r, is_status "Booked" r && bool_decide (0 < attemptCount r)) all in
  let trends := foldl trends_count (trends_init (week clk)) all in
  let days := sort code_units (map fst (map_to_list trends)) in
  {| bookedToday := booked_on (today clk);
     bookedYesterday := booked_on (yesterday clk);
     readyToCall := how_many (is_status "Ready to Call") all;
     needsRetry := how_many (is_status "Needs Retry") all;
     callbacksScheduled := how_many (is_status "Callback Requested") all;
     currentlyCalling := how_many (is_status "Currently Calling") all;
     totalCallsToday := calls_on (today clk);
     totalCallsYesterday := calls_on (yesterday clk);
     conversionRate :=
       if bool_decide (0 < totalContacted)%nat
       then ToFixed1 (Z.of_nat totalBooked) (Z.of_nat totalContacted) 100
       else Literal "0.0";
     totalBooked := totalBooked;
     totalContacted := totalContacted;
     avgDuration :=
       if bool_decide (0 < length durations)%nat
       then round_div (foldl Z.add 0 durations) (Z.of_nat (length durations))
       else 0;
     avgAttemptsToBook :=
       if bool_decide (0 < length bookedLeads)%nat
       then ToFixed1 (foldl (λ a r, a + attemptCount r) 0 bookedLeads)
                     (Z.of_nat (length bookedLeads)) 1
       else Literal "—";
     callsTrend := map (λ d, default 0%nat (fst <$> trends !! d)) days;
     bookedTrend := map (λ d, default 0%nat (snd <$> trends !! d)) days;
     trendDays := days |}.

Record pagination := Pagination {
  page : num;
  limit : num;
  total_ : nat;
  pages : num
}.

Record filter_options := FilterOptions {
  statuses : list string;
  outcomes : list string;
  agents : list string
}.

Record response := Response {
  r_stats : stats;
  r_records : list record;
  r_pagination : pagination;
  r_filters : filter_options;
  fetchedAt : string
}.

(** [Math.max(1, n)] and [Math.max(1, Math.min(100, n))] *)
Definition at_least_1 (n : num) : num :=
  match n with NaN => NaN | Num z => Num (Z.max 1 z) end.

Definition clamp_limit (n : num) : num :=
  match n with NaN => NaN | Num z => Num (Z.max 1 (Z.min 100 z)) end.

(** [filtered.slice((p - 1) * l, p * l)]; [slice] reads [NaN] as 0. *)
Definition page_slice (p l : num) (filtered : list record) : list record :=
  match p, l with
  | Num p, Num l =>
      take (Z.to_nat (p * l) - Z.to_nat ((p - 1) * l))
           (drop (Z.to_nat ((p - 1) * l)) filtered)
  | _, _ => []
  end.

(** [Math.ceil(total / l)] *)
Definition page_count (total : nat) (l : num) : num :=
  match l with
  | Num l => Num ((Z.of_nat total + l - 1) / l)
  | NaN => NaN
  end.

Section View.

(** [String.prototype.localeCompare], the collation of the platform. *)
Variable localeCompare : string → string → Z.

(** The comparator of lines 198-203. *)
Definition compare_by (sortKey dir : string) (a b : record) : Z :=
  let av := property sortKey a in
  let bv := property sortKey b in
  match av, bv with
  | VNum x, VNum y => if decide (dir = "asc") then x - y else y - x
  | _, _ =>
      let av := String_ av in
      let bv := String_ bv in
      if decide (dir = "asc") then localeCompare av bv else localeCompare bv av
  end.

(** Lines 182-195: the filters, each applied when its parameter is given. *)
Definition apply_filters (q : query) (all : list record) : list record :=
  let filtered := all in
  let filtered :=
    if decide (q_search q = "") then filtered
    else
      let s := toLowerCase (q_search q) in
      List.filter (λ r,
        includes (toLowerCase (firstName r +:+ " " +:+ lastName r)) s
        || includes (phone r) s
        || includes (toLowerCase (address r)) s
        || includes (toLowerCase (email r)) s) filtered in
  let filtered :=
    if decide (q_status q = "") then filtered
    else let ss := split "," (q_status q) in
         List.filter (λ r, member (status r) ss) filtered in
  let filtered :=
    if decide (q_outcome q = "") then filtered
    else let oo := split "," (q_outcome q) in
         List.filter (λ r, member (callOutcome r) oo) filtered in
  let filtered :=
    if decide (q_agent q = "") then filtered
    else let aa := split "," (q_agent q) in
         List.filter (λ r, member (agentId r) aa || member (agentName r) aa) filtered in
  let filtered :=
    if decide (q_dateFrom q = "") then filtered
    else List.filter (λ r, String.leb (q_dateFrom q) (lastCallDate r)) filtered in
  let filtered :=
    if decide (q_dateTo q = "") then filtered
    else List.filter (λ r, String.leb (lastCallDate r) (q_dateTo q +:+ "T23:59:59"))
                     filtered in
  match q_minDuration q with
  | None => filtered
  | Some NaN => List.filter (λ _, false) filtered
  | Some (Num md) =>
      List.filter (λ r, match probedDuration r with
                        | Some d => bool_decide (md ≤ d)
                        | None => false
                        end) filtered
  end.

(** The handler, given the snapshot [fetchAllRecords] returned. *)
Definition leads (all : list record) (clk : clock) (q : query) : response :=
  let filtered := apply_filters q all in
  let filtered := sort (compare_by (q_sort q) (q_dir q)) filtered in
  let total := length filtered in
  let p := at_least_1 (q_page q) in
  let l := clamp_limit (q_limit q) in
  {| r_stats := computeStats all clk;
     r_records := page_slice p l filtered;
     r_pagination := Pagination p l total (page_count total l);
     r_filters :=
       FilterOptions
         (options (map status all))
         (options (map callOutcome all))
         (sort code_units
            (remove_dups
               (List.filter (λ s, bool_decide (s ≠ "") && bool_decide (s ≠ "Unknown"))
                            (map agentName all))));
     fetchedAt := nowIso clk |}.

End View.

(** ** Analytics: the duration histogram (lines 348-361) *)

Module Analytics.

Record buckets := Buckets {
  b_0_30s : nat;
  b_30_60s : nat;
  b_1_2m : nat;
  b_2_5m : nat;
  b_5_10m : nat;
  b_10m_plus : nat
}.

Definition no_buckets : buckets := Buckets 0 0 0 0 0 0.

(** The [if / else if] chain of lines 355-360 for one duration [d]. *)
Definition bump (d : Z) (b : buckets) : buckets :=
  let '(Buckets b0 b1 b2 b3 b4 b5) := b in
  if bool_decide (d ≤ 30) then Buckets (S b0) b1 b2 b3 b4 b5
  else if bool_decide (d ≤ 60) then Buckets b0 (S b1) b2 b3 b4 b5
  else if bool_decide (d ≤ 120) then Buckets b0 b1 (S b2) b3 b4 b5
  else if bool_decide (d ≤ 300) then Buckets b0 b1 b2 (S b3) b4 b5
  else if bool_decide (d ≤ 600) then Buckets b0 b1 b2 b3 (S b4) b5
  else Buckets b0 b1 b2 b3 b4 (S b5).

(** The part of the loop body of line 350 that fills [durationBuckets]. *)
Definition count_record (b : buckets) (r : record) : buckets :=
  match probedDuration r with
  | Some d => if bool_decide (0 < d) then bump d b else b
  | None => b
  end.

Definition durationBuckets (all : list record) : buckets :=
  foldl count_record no_buckets all.

Definition total (b : buckets) : nat :=
  (b_0_30s b + b_30_60s b + b_1_2m b + b_2_5m b + b_5_10m b + b_10m_plus b)%nat.

(** Records whose probed duration lies in the half-open range (lo, hi]. *)
Definition within (lo : Z) (hi : option Z) (r : record) : bool :=
  match probedDuration r with
  | Some d =>
      bool_decide (lo < d) &&
      match hi with Some h => bool_decide (d ≤ h) | None => true end
  | None => false
  end.

Definition count (p : record → bool) (l : list record) : nat :=
  length (List.filter p l).

(** The histogram after counting [l] on top of [b]. *)
Definition shifted (b : buckets) (l : list record) : buckets :=
  Buckets (b_0_30s b + count (within 0 (Some 30)) l)
          (b_30_60s b + count (within 30 (Some 60)) l)
          (b_1_2m b + count (within 60 (Some 120)) l)
          (b_2_5m b + count (within 120 (Some 300)) l)
          (b_5_10m b + count (within 300 (Some 600)) l)
          (b_10m_plus b + count (within 600 None) l).

(** The six ranges of the histogram, in the order of the buckets. *)
Definition ranges : list (Z * option Z) :=
  [(0, Some 30); (30, Some 60); (60, Some 120); (120, Some 300);
   (300, Some 600); (600, None)].

(** The ranges a record falls in. *)
Definition hits (r : record) : list (Z * option Z) :=
  List.filter (λ rg, within (fst rg) (snd rg) r) ranges.

End Analytics.


(** ** Vocabulary for the properties below *)

(** What the upstream answers to the requests of one call. *)
Inductive answer :=
| Page (resp : page_response)
| Probe (i : nat) (resp : head_response).

Definition deliver (t : nat) (a : answer) : event :=
  match a with
  | Page resp => PageArrives t resp
  | Probe i resp => HeadArrives t i resp
  end.

(** A page request that fails, and the error line 65 or 66 throws for it. *)
Definition failed (resp : page_response) : option error :=
  match resp with
  | PageFailed => Some FetchFailed
  | PageNotOk status body => Some (AirtableError status body)
  | PageOk _ _ => None
  end.

(** A page that announces a further page. *)
Definition more (p : list raw_record * string) : page_response :=
  PageOk p.1 p.2.

(** The module-level state of [s'] is that of [s]: the snapshot cache, the
    duration cache, the subscribers, and what was written to them. *)
Definition same_store (s s' : server) : Prop :=
  cache s' = cache s
  ∧ durationCache s' = durationCache s
  ∧ sseClients s' = sseClients s
  ∧ sockets s' = sockets s
  ∧ wire s' = wire s.

(** A call that has not settled. *)
Definition in_flight (k : option task) : Prop :=
  match k with
  | Some (AwaitPage _ _) | Some (AwaitProbes _ _ _ _) => True
  | _ => False
  end.

(** Call [t], started at [now], is under way, or it has failed, or it has
    returned the snapshot that the cache now holds under the time [now]. *)
Definition call_state (t : nat) (now : Z) (s : server) : Prop :=
  match tasks s !! t with
  | Some (AwaitPage now' _) => now' = now
  | Some (AwaitProbes now' _ _ _) => now' = now
  | Some (Resolved recs) => records (cache s) = Some recs ∧ ts (cache s) = now
  | Some (Rejected _) => True
  | None => False
  end.

(** A [HEAD] answer from which no duration comes: the request failed, the
    response is not [ok], or the length does not exceed the WAV header. *)
Definition no_duration (resp : head_response) : Prop :=
  match resp with
  | HeadFailed => True
  | HeadAnswer ok cl => ok = false ∨ default 0 cl ≤ 44
  end.

(** Line 114 read as a case distinction. *)
Definition duration_rule (dc : gmap string Z) (r : record) : Z :=
  if decide (callDuration r ≠ 0) then callDuration r
  else default 0 (dc !! recordingUrl r).

(** The rule for [probedDuration] in the words of the specification: the
    explicit duration when greater than 0, else the probed one, else 0. *)
Definition specified_duration (dc : gmap string Z) (r : record) : Z :=
  if bool_decide (0 < callDuration r) then callDuration r
  else match dc !! recordingUrl r with
       | Some d => d
       | None => 0
       end.

(** A row with a status; a row with a call duration and a recording. *)
Definition row (i st : string) : raw_record :=
  RawRecord i {["Status" := VStr st]}.

Definition call_row (i : string) (seconds : Z) (url : string) : raw_record :=
  RawRecord i (<["Call Duration" := VNum seconds]> {["Latest Recording" := VStr url]}).

(** The process once it has cached a snapshot of one new lead at time
    100000. *)
Definition warmed_up : server :=
  run boot [Call 100000; PageArrives 0 (PageOk [row "rec1" "New"] "")].

(** Two SSE clients connect, then the first snapshot is fetched. *)
Definition two_listeners : list event :=
  [Subscribe 0; Subscribe 1; Call 100000; PageArrives 0 (PageOk [row "rec1" "New"] "")].

(** The connection of client 0 changes condition; the next poll finds the
    lead booked. *)
Definition refresh_booked (o : write_outcome) : list event :=
  [Socket 0 o; Invalidate; Call 130000;
   PageArrives 1 (PageOk [row "rec1" "Booked"] "")].

(** Two readers call while the snapshot of [warmed_up] is stale; the table
    changes between the answers to their requests. *)
Definition two_readers : list event :=
  [Call 130000; Call 130000;
   PageArrives 1 (PageOk [row "rec1" "New"] "");
   PageArrives 2 (PageOk [row "rec1" "Booked"] "")].

(** The statuses of the snapshot a call returned. *)
Definition returned_statuses (s : server) (t : nat) : option (list string) :=
  match tasks s !! t with
  | Some (Resolved recs) => Some (map status recs)
  | _ => None
  end.

(** A fetch of one row whose duration column holds a negative number. *)
Definition negative_duration : list event :=
  [Call 100000;
   PageArrives 0 (PageOk [call_row "rec1" (-5) "https://r/1.wav"] "")].

(** Two polls of one row with a recording and no duration; the [HEAD] of
    the first comes back 404. *)
Definition probe_twice : list event :=
  [Call 100000;
   PageArrives 0 (PageOk [call_row "rec1" 0 "https://r/1.wav"] "");
   HeadArrives 0 0 (HeadAnswer false None);
   Invalidate; Call 130000;
   PageArrives 1 (PageOk [call_row "rec1" 0 "https://r/1.wav"] "")].

(** A comparator that orders the elements of [l]: of two elements one is
    not above the other, and not-above is transitive. *)
Definition consistent {A} (cmp : A → A → Z) (l : list A) : Prop :=
  (∀ a b, a ∈ l → b ∈ l → 0 < cmp a b → cmp b a ≤ 0)
  ∧ (∀ a b c, a ∈ l → b ∈ l → c ∈ l → cmp a b ≤ 0 → cmp b c ≤ 0 → cmp a c ≤ 0).

(** No two different elements of [l] compare equal. *)
Definition no_ties {A} (cmp : A → A → Z) (l : list A) : Prop :=
  ∀ a b, a ∈ l → b ∈ l → cmp a b ≤ 0 → cmp b a ≤ 0 → a = b.

(** Every element is not above the elements after it. *)
Definition ordered {A} (cmp : A → A → Z) (l : list A) : Prop :=
  StronglySorted (λ a b, cmp a b ≤ 0) l.

(** The query that only sorts, and the one that only filters on a status. *)
Definition sorted_on (key dir : string) : query :=
  Query "" "" "" "" "" "" None (Num 1) (Num 20) key dir.

Definition with_status (st : string) : query :=
  Query "" st "" "" "" "" None (Num 1) (Num 20) "lastCallDate" "desc".

Definition a_monday : clock :=
  Clock "2024-01-08" "2024-01-07"
        ["2024-01-02"; "2024-01-03"; "2024-01-04"; "2024-01-05"; "2024-01-06";
         "2024-01-07"; "2024-01-08"]
        "2024-01-08T09:00:00.000Z".

(** The record that the first fetch of the process makes of a row. *)
Definition fetched (r : raw_record) : record :=
  set_probedDuration (probed ∅ (normalize r)) (normalize r).

(** Two leads that tie on every numeric column. *)
Definition tied : list record := [fetched (row "rec1" "New"); fetched (row "rec2" "New")].

(** The counters of a [stats] block that no record has touched. *)
Definition nothing_counted (st : stats) : Prop :=
  bookedToday st = 0%nat ∧ bookedYesterday st = 0%nat ∧ readyToCall st = 0%nat
  ∧ needsRetry st = 0%nat ∧ callbacksScheduled st = 0%nat
  ∧ currentlyCalling st = 0%nat ∧ totalCallsToday st = 0%nat
  ∧ totalCallsYesterday st = 0%nat ∧ conversionRate st = Literal "0.0"
  ∧ totalBooked st = 0%nat ∧ totalContacted st = 0%nat ∧ avgDuration st = 0
  ∧ avgAttemptsToBook st = Literal "—"
  ∧ Forall (λ n, n = 0%nat) (callsTrend st)
  ∧ Forall (λ n, n = 0%nat) (bookedTrend st).

(** Two leads told apart by their ids. *)
Definition two_ids : list record :=
  [fetched (row "recB" "New"); fetched (row "recA" "Booked")].

(** ** The mutation handlers (lines 282-339) *)

(** Reading the body of a response, as text or as JSON: the promise
    rejects with a message, or gives the content. *)
Inductive read :=
| ReadFails (message : string)
| Read (content : string).

(** What the table answers to a write: the promise of [fetch] rejects with a
    message, or a response arrives with its [ok] flag, its status and what
    [text()] and [json()] would give on its body. *)
Inductive write_reply :=
| WriteFailed (message : string)
| WriteAnswer (ok : bool) (status : Z) (text : read) (json : read).

(** The writes sent to the table. *)
Inductive write_request :=
| PatchRecord (i : string) (fields : gmap string value)
| DeleteRecord (i : string).

(** What a handler sends back: [res.status(code).json(...)]. *)
Inductive reply_body :=
| Failure (error : string) (details : option string)
| Success (record : option string).

Record http_reply := Json { code : Z; payload : reply_body }.

(** A handler up to its [await]: it has answered, or it has sent a write. *)
Inductive handler_step :=
| Answered (r : http_reply)
| Asked (w : write_request).

(** [cache.ts = 0] *)
Definition invalidate (s : server) : server := step s Invalidate.

(** [PATCH /api/leads/:id], lines 285-290: [fields] is [None] when the body
    has none. *)
Definition patch_lead_call (i : string) (fields : option (gmap string value))
  : handler_step :=
  match fields with
  | None => Answered (Json 400 (Failure "Missing fields" None))
  | Some f => Asked (PatchRecord i f)
  end.

(** What the [catch] of a handler answers. *)
Definition server_error (message : string) : http_reply :=
  Json 500 (Failure "Internal server error" (Some message)).

(** The branch of a response that is not ok: the status is passed on with
    the text of the body. *)
Definition passed_on (error : string) (status : Z) (text : read) : http_reply :=
  match text with
  | Read errText => Json status (Failure error (Some errText))
  | ReadFails message => server_error message
  end.

(** Lines 291-301: the time stamp is reset before the body is read. *)
Definition patch_lead_reply (r : write_reply) (s : server) : http_reply * server :=
  match r with
  | WriteFailed message => (server_error message, s)
  | WriteAnswer false status text _ => (passed_on "Airtable update failed" status text, s)
  | WriteAnswer true _ _ (Read record) => (Json 200 (Success (Some record)), invalidate s)
  | WriteAnswer true _ _ (ReadFails message) => (server_error message, invalidate s)
  end.

(** [DELETE /api/leads/:id], lines 307-319. *)
Definition delete_lead_call (i : string) : handler_step := Asked (DeleteRecord i).

Definition delete_lead_reply (r : write_reply) (s : server) : http_reply * server :=
  match r with
  | WriteFailed message => (server_error message, s)
  | WriteAnswer false status text _ => (passed_on "Airtable delete failed" status text, s)
  | WriteAnswer true _ _ _ => (Json 200 (Success None), invalidate s)
  end.

(** [DELETE /api/leads/:id/recording], lines 325-338. *)
Definition delete_recording_call (i : string) : handler_step :=
  Asked (PatchRecord i {["Recording URLs" := VStr ""]}).

Definition delete_recording_reply (r : write_reply) (s : server)
  : http_reply * server :=
  match r with
  | WriteFailed message => (server_error message, s)
  | WriteAnswer false status text _ => (passed_on "Airtable update failed" status text, s)
  | WriteAnswer true _ _ _ => (Json 200 (Success None), invalidate s)
  end.

(** ** Analytics: the other aggregates (lines 346-406) *)

(** The names every object literal inherits from [Object.prototype]: under
    these keys a fresh [{}] already reads a value, and a truthy one. *)
Definition inherited : list string :=
  ["constructor"; "__defineGetter__"; "__defineSetter__"; "hasOwnProperty";
   "__lookupGetter__"; "__lookupSetter__"; "isPrototypeOf";
   "propertyIsEnumerable"; "toString"; "valueOf"; "__proto__";
   "toLocaleString"].

(** What a histogram holds under a key: a count, or, under an inherited
    key, the text of the inherited value with one digit 1 pasted to it for
    every record counted (the [+ 1] on a function is a concatenation). *)
Inductive tallied :=
| Count (n : nat)
| Pasted (k : string) (ones : nat).

(** [counts[k] = (counts[k] || 0) + 1].  The assignment to [__proto__] of
    a string is ignored: that key never becomes a property. *)
Definition tally_step (m : gmap string tallied) (k : string) : gmap string tallied :=
  match m !! k with
  | Some (Count n) => <[k := Count (S n)]> m
  | Some (Pasted p n) => <[k := Pasted p (S n)]> m
  | None =>
      if decide (k = "__proto__") then m
      else if decide (k ∈ inherited) then <[k := Pasted k 1]> m
      else <[k := Count 1]> m
  end.

(** The loop over the records, for the histogram of outcomes (line 351),
    of statuses (line 376) and of the outcomes of a day (line 466). *)
Definition tally (key : record → string) (all : list record) : gmap string tallied :=
  foldl (λ m r, tally_step m (key r)) ∅ all.

(** The count a histogram holds under [k], 0 when it holds none there:
    [counts[k] || 0] for a key that no object inherits. *)
Definition count_at (m : gmap string tallied) (k : string) : nat :=
  match m !! k with
  | Some (Count n) => n
  | _ => 0%nat
  end.

Definition outcomeCounts (all : list record) : gmap string tallied :=
  tally (λ r, or_str (callOutcome r) "No Outcome") all.

Definition statusCounts (all : list record) : gmap string tallied :=
  tally (λ r, or_str (status r) "Unknown") all.

(** Lines 364-373: the series of the last 30 days, by the loop of the
    trend of the leads view, over the days the clock lists (dates in the
    form of [toISOString], as for the trend). *)
Definition daily (days : list string) (all : list record) : gmap string (nat * nat) :=
  foldl trends_count (trends_init days) all.

(** [hourly[i]]; the array has 24 cells, and outside it a comparison is
    false as with 0. *)
Definition at_hour (hourly : list nat) (i : nat) : nat :=
  default 0%nat (hourly !! i).

(** The loop of line 401 run over the hours 1 to [n]. *)
Definition best_upto (hourly : list nat) (n : nat) : nat :=
  foldl (λ best i, if bool_decide (at_hour hourly best < at_hour hourly i)%nat
                   then i else best)
        0%nat (seq 1 n).

(** Lines 400-401: the hour with the most calls. *)
Definition bestHour (hourly : list nat) : nat := best_upto hourly 23.

(** One row of the per-agent breakdown while it is being counted. *)
Record agent_row := AgentRow {
  a_calls : nat;
  a_booked : nat;
  a_notInterested : nat;
  a_hungUp : nat;
  a_voicemail : nat;
  a_callback : nat;
  a_noAnswer : nat;
  a_renter : nat;
  a_durations : list Z
}.

Definition new_agent : agent_row := AgentRow 0 0 0 0 0 0 0 0 [].

Definition when (o : string) (r : record) (n : nat) : nat :=
  if decide (callOutcome r = o) then S n else n.

(** Lines 382-390 for one record. *)
Definition agent_record (r : record) (a : agent_row) : agent_row :=
  {| a_calls := S (a_calls a);
     a_booked := when "BOOKED" r (a_booked a);
     a_notInterested := when "NOT_INTERESTED" r (a_notInterested a);
     a_hungUp := when "HUNG_UP" r (a_hungUp a);
     a_voicemail := when "VOICEMAIL" r (a_voicemail a);
     a_callback := when "CALLBACK_REQUESTED" r (a_callback a);
     a_noAnswer := when "NO_ANSWER" r (a_noAnswer a);
     a_renter := when "RENTER" r (a_renter a);
     a_durations :=
       match probedDuration r with
       | Some d => if bool_decide (0 < d) then a_durations a ++ [d] else a_durations a
       | None => a_durations a
       end |}.

(** Lines 379-391 for one record.  A row is created under a name that
    reads nothing yet; under an inherited name the counters go to the
    inherited object, which is no row of the breakdown, and the [push] of a
    positive duration finds no [durations] there and throws. *)
Definition agent_step (m : gmap string agent_row) (r : record)
  : option (gmap string agent_row) :=
  let agent := or_str (agentName r) "Unknown" in
  if decide (agent ∈ inherited) then
    if positive_duration r then None else Some m
  else Some (<[agent := agent_record r (default new_agent (m !! agent))]> m).

(** The loop of lines 379-391; [None] when it throws. *)
Definition agentCounts (all : list record) : option (gmap string agent_row) :=
  foldl (λ m r, m ≫= λ m, agent_step m r) (Some ∅) all.

(** A row as the response carries it, lines 392-398. *)
Record agent_stats := AgentStats {
  calls : nat;
  booked : nat;
  contacted : Z;
  contactRate : fixed1;
  bookRate : fixed1;
  agentAvgDuration : Z
}.

Definition agent_finish (a : agent_row) : agent_stats :=
  let contacted :=
    Z.of_nat (a_calls a) - Z.of_nat (a_voicemail a) - Z.of_nat (a_noAnswer a) in
  {| calls := a_calls a;
     booked := a_booked a;
     contacted := contacted;
     contactRate :=
       if bool_decide (0 < a_calls a)%nat
       then ToFixed1 contacted (Z.of_nat (a_calls a)) 100 else Literal "0.0";
     bookRate :=
       if bool_decide (0 < contacted)
       then ToFixed1 (Z.of_nat (a_booked a)) contacted 100 else Literal "0.0";
     agentAvgDuration :=
       if bool_decide (0 < length (a_durations a))%nat
       then round_div (foldl Z.add 0 (a_durations a))
                      (Z.of_nat (length (a_durations a)))
       else 0 |}.

Definition agentBreakdown (all : list record) : option (gmap string agent_stats) :=
  (λ m : gmap string agent_row, agent_finish <$> m) <$> agentCounts all.

(** ** CSV export (lines 410-424) *)

Definition dquote : ascii := ascii_of_nat 34.
Definition newline : string := String (ascii_of_nat 10) EmptyString.

(** The [replace] of line 415: every double quote is written twice. *)
Fixpoint double_quotes (s : string) : string :=
  match s with
  | EmptyString => EmptyString
  | String a s' =>
      if Ascii.eqb a dquote then String dquote (String dquote (double_quotes s'))
      else String a (double_quotes s')
  end.

(** The [esc] of line 415: the string form of the cell between quotes. *)
Definition esc (v : value) : string :=
  String dquote (double_quotes (String_ v) +:+ String dquote EmptyString).

Definition csv_headers : list string :=
  ["First Name"; "Last Name"; "Phone"; "Email"; "Status"; "Call Outcome";
   "Call Duration"; "Last Call Date"; "Address"; "City"; "State";
   "Electric Bill"; "Utility Company"; "Notes"].

(** The cells of line 418. *)
Definition csv_cells (r : record) : list value :=
  [VStr (firstName r); VStr (lastName r); VStr (phone r); VStr (email r);
   VStr (status r); VStr (callOutcome r); VNum (callDuration r);
   VStr (lastCallDate r); VStr (address r); VStr (city r); VStr (state_ r);
   VStr (electricBill r); VStr (utilityCompany r); VStr (notes r)].

Definition csv_line (cells : list value) : string :=
  String.concat "," (map esc cells).

Definition csv_rows (all : list record) : list string :=
  String.concat "," csv_headers :: map (λ r, csv_line (csv_cells r)) all.

Definition export_csv (all : list record) : string :=
  String.concat newline (csv_rows all).

(** ** Call analysis (lines 445-523) *)

(** [r.probedDuration || r.callDuration || 0] *)
Definition duration_of (r : record) : Z :=
  match probedDuration r with
  | Some d => if decide (d = 0) then callDuration r else d
  | None => callDuration r
  end.

(** Line 452: the records called on the day. *)
Definition on_day (targetDate : string) (r : record) : bool :=
  called r && String.prefix targetDate (lastCallDate r).

(** Line 484: an outcome other than no answer and voicemail. *)
Definition was_contacted (r : record) : bool :=
  bool_decide (callOutcome r ≠ "")
  && negb (member (callOutcome r) ["NO_ANSWER"; "VOICEMAIL"]).

Record day_metrics := DayMetrics {
  m_total : nat;
  m_contacted : nat;
  m_contactRate : fixed1;
  m_booked : nat;
  m_bookRate : fixed1;
  m_avgDuration : Z;
  m_outcomes : gmap string tallied
}.

(** The metrics of lines 453-492 ([None] for a day without calls); the
    count of transcripts and the objections are left out. *)
Definition call_metrics (targetDate : string) (all : list record) : option day_metrics :=
  let dayRecords := List.filter (on_day targetDate) all in
  let total := length dayRecords in
  if bool_decide (total = 0%nat) then None
  else
    let outcomes := tally (λ r, or_str (callOutcome r) "UNKNOWN") dayRecords in
    let durations :=
      omap (λ r, if bool_decide (0 < duration_of r) then Some (duration_of r) else None)
           dayRecords in
    let contacted := length (List.filter was_contacted dayRecords) in
    let booked := count_at outcomes "BOOKED" in
    Some {| m_total := total;
            m_contacted := contacted;
            m_contactRate :=
              if bool_decide (0 < total)%nat
              then ToFixed1 (Z.of_nat contacted) (Z.of_nat total) 100
              else Literal "0.0";
            m_booked := booked;
            m_bookRate :=
              if bool_decide (0 < contacted)%nat
              then ToFixed1 (Z.of_nat booked) (Z.of_nat contacted) 100
              else Literal "0.0";
            m_avgDuration :=
              if bool_decide (0 < length durations)%nat
              then round_div (foldl Z.add 0 durations) (Z.of_nat (length durations))
              else 0;
            m_outcomes := outcomes |}.

(** Lines 510-514: the calls of the day worth reading. *)
Definition substantial (targetDate : string) (r : record) : bool :=
  called r && String.prefix targetDate (lastCallDate r)
  && bool_decide (100 < String.length (transcript r))%nat
  && bool_decide (30 ≤ duration_of r).

(** Line 510. *)
Definition dayRecords (targetDate : string) (all : list record) : list record :=
  List.filter (substantial targetDate) all.

Definition outcome_key (r : record) : string := or_str (callOutcome r) "UNKNOWN".

(** [byOutcome[o].push(r)], creating the group at the end when it is new:
    the groups stand in the order in which their outcomes first occur. *)
Fixpoint push (o : string) (r : record) (groups : list (string * list record))
  : list (string * list record) :=
  match groups with
  | [] => [(o, [r])]
  | (k, rs) :: rest =>
      if decide (k = o) then (k, rs ++ [r]) :: rest
      else (k, rs) :: push o r rest
  end.

(** Line 519; [None] when it throws: under an inherited name [byOutcome[o]]
    reads a value that is truthy and has no [push]. *)
Definition byOutcome (day : list record)
  : option (list (string * list record)) :=
  foldl (λ g r, g ≫= λ g,
           if decide (outcome_key r ∈ inherited) then None
           else Some (push (outcome_key r) r g))
        (Some []) day.

Definition group_of (o : string) (groups : list (string * list record)) : list record :=
  match List.find (λ g, bool_decide (g.1 = o)) groups with
  | Some g => g.2
  | None => []
  end.

Definition digit (a : ascii) : option N :=
  let n := N_of_ascii a in
  if bool_decide (48 ≤ n ≤ 57)%N then Some (n - 48)%N else None.

Fixpoint digits (s : string) (acc : N) : option N :=
  match s with
  | EmptyString => Some acc
  | String a s' => digit a ≫= λ d, digits s' (10 * acc + d)%N
  end.

(** The keys that are array indices: the decimal form, without leading
    zero, of a number below 2^32 - 1. *)
Definition array_index (k : string) : option N :=
  match k with
  | EmptyString => None
  | String a s' =>
      if bool_decide (a = "0"%char ∧ s' ≠ EmptyString) then None
      else digits k 0 ≫= λ n, if bool_decide (n < 2 ^ 32 - 1)%N then Some n else None
  end.

Definition is_index (g : string * list record) : bool :=
  bool_decide (is_Some (array_index g.1)).

Definition by_index (g h : string * list record) : Z :=
  Z.of_N (default 0%N (array_index g.1)) - Z.of_N (default 0%N (array_index h.1)).

(** [Object.entries]: the array indices in ascending order, then the other
    keys in the order of their creation. *)
Definition entries (groups : list (string * list record))
  : list (string * list record) :=
  sort by_index (List.filter is_index groups)
  ++ List.filter (λ g, negb (is_index g)) groups.

(** Line 522: five of every outcome other than the booked one. *)
Definition five_each (groups : list (string * list record)) : list record :=
  flat_map (λ g, if decide (g.1 = "BOOKED") then [] else take 5 g.2) groups.

(** Lines 518-523: all the booked calls, then five of every other
    outcome, fifty at most. *)
Definition finalSample (day : list record) : option (list record) :=
  byOutcome day ≫= λ groups,
  Some (take 50 (group_of "BOOKED" groups ++ five_each (entries groups))).
(** ** Vocabulary for the view *)

(** The test of line 185-188 for a lowercased search string. *)
Definition search_hit (s : string) (r : record) : bool :=
  includes (toLowerCase (firstName r +:+ " " +:+ lastName r)) s
  || includes (phone r) s
  || includes (toLowerCase (address r)) s
  || includes (toLowerCase (email r)) s.

(** [r.probedDuration >= md] *)
Definition long_enough (md : num) (r : record) : bool :=
  match md, probedDuration r with
  | Num md, Some d => bool_decide (md ≤ d)
  | _, _ => false
  end.

(** A record passes every filter whose parameter the query gives. *)
Definition matches (q : query) (r : record) : bool :=
  (bool_decide (q_search q = "") || search_hit (toLowerCase (q_search q)) r)
  && (bool_decide (q_status q = "") || member (status r) (split "," (q_status q)))
  && (bool_decide (q_outcome q = "") || member (callOutcome r) (split "," (q_outcome q)))
  && (bool_decide (q_agent q = "")
      || member (agentId r) (split "," (q_agent q))
      || member (agentName r) (split "," (q_agent q)))
  && (bool_decide (q_dateFrom q = "") || String.leb (q_dateFrom q) (lastCallDate r))
  && (bool_decide (q_dateTo q = "")
      || String.leb (lastCallDate r) (q_dateTo q +:+ "T23:59:59"))
  && match q_minDuration q with
     | None => true
     | Some md => long_enough md r
     end.

(** The query [q] asking for page [p]. *)
Definition on_page (q : query) (p : Z) : query :=
  Query (q_search q) (q_status q) (q_outcome q) (q_agent q) (q_dateFrom q)
        (q_dateTo q) (q_minDuration q) (Num p) (q_limit q) (q_sort q) (q_dir q).

(** Page [k] (counted from 0) of [xs] at [l] records a page. *)
Definition nth_page (l : Z) (xs : list record) (k : nat) : list record :=
  page_slice (Num (Z.of_nat k + 1)) (Num l) xs.

(** Ascending in code units, without repetition. *)
Definition ascending (l : list string) : Prop :=
  StronglySorted (λ a b, String.compare a b = Lt) l.

(** The called records of a day, and the booked ones among them. *)
Definition calls_on (d : string) (all : list record) : nat :=
  how_many (λ r, called r && bool_decide (day_of r = d)) all.

Definition booked_on (d : string) (all : list record) : nat :=
  how_many (λ r, called r && bool_decide (day_of r = d) && is_status "Booked" r) all.

(** A snapshot of 25 leads. *)
Definition twenty_five : list record :=
  map (λ n, fetched (row (pretty n) "New")) (seq 0 25).

(** ** Vocabulary for the states of the process *)

(** A state the process can be in: the state at start, after some events. *)
Definition reachable (s : server) : Prop := ∃ events, s = run boot events.

(** The events that client [c] was sent, oldest first. *)
Definition frames_of (c : nat) (w : wire_t) : list sse_event :=
  map snd (List.filter (λ f, bool_decide (f.1 = c)) w).

(** What every state of the process satisfies: the duration cache holds
    durations that are not negative under urls that are not empty; a call
    suspended on its probes holds the normalised rows and waits for urls
    that are not empty; the cache holds no snapshot or the normalised rows
    of its raw payload with a duration attached; no client is subscribed
    twice. *)
Definition well_formed (s : server) : Prop :=
  (∀ url d, durationCache s !! url = Some d → url ≠ "" ∧ 0 ≤ d)
  ∧ (∀ t now allRecords mapped pending,
       tasks s !! t = Some (AwaitProbes now allRecords mapped pending) →
       mapped = map normalize allRecords
       ∧ ∀ i url, pending !! i = Some (Some url) → url ≠ "")
  ∧ match records (cache s), raw (cache s) with
    | None, None => True
    | Some recs, Some rows => ∃ dc, recs = attach dc (map normalize rows)
    | _, _ => False
    end
  ∧ NoDup (sseClients s).

(** ** Vocabulary for the analytics and the export *)

(** The outcome counters of a row do not exceed its calls, nor does the
    number of its durations, and it has a call. *)
Definition row_consistent (a : agent_row) : Prop :=
  (a_booked a + a_notInterested a + a_hungUp a + a_voicemail a + a_callback a
   + a_noAnswer a + a_renter a ≤ a_calls a)%nat
  ∧ (length (a_durations a) ≤ a_calls a)%nat
  ∧ (1 ≤ a_calls a)%nat.

(** Reading a quoted cell from behind its opening quote: the text of the
    cell, a doubled quote standing for one, and what follows the closing
    quote. *)
Fixpoint cell_body (s : string) : option (string * string) :=
  match s with
  | EmptyString => None
  | String a s' =>
      if Ascii.eqb a dquote then
        match s' with
        | EmptyString => Some (EmptyString, EmptyString)
        | String b s'' =>
            if Ascii.eqb b dquote
            then (λ cr, (String dquote cr.1, cr.2)) <$> cell_body s''
            else Some (EmptyString, s')
        end
      else (λ cr, (String a cr.1, cr.2)) <$> cell_body s'
  end.

(** Reading a line of [n] quoted cells separated by commas. *)
Fixpoint read_cells (n : nat) (s : string) : option (list string) :=
  match n, s with
  | S n', String q s' =>
      if Ascii.eqb q dquote then
        match cell_body s' with
        | Some (c, rest) =>
            match n', rest with
            | O, EmptyString => Some [c]
            | S _, String sep rest' =>
                if Ascii.eqb sep "," then (c ::.) <$> read_cells n' rest' else None
            | _, _ => None
            end
        | None => None
        end
      else None
  | _, _ => None
  end.

(** A lead with a comma, a quote and a line break in its notes. *)
Definition awkward_notes : string :=
  "roof, " +:+ String dquote "old" +:+ String dquote EmptyString +:+ newline +:+ "call back".

(** The records of outcome [o], an empty outcome reading "UNKNOWN". *)
Definition has_outcome (o : string) (r : record) : bool :=
  bool_decide (outcome_key r = o).


(** What a histogram holds under a key that counts [n] records. *)
Definition tallied_of (k : string) (n : nat) : option tallied :=
  if decide (n = 0%nat) then None
  else if decide (k = "__proto__") then None
  else if decide (k ∈ inherited) then Some (Pasted k n)
  else Some (Count n).

(** A first fetch of one call without duration, whose recording the probe
    finds to be 96044 bytes long. *)
Definition probed_once : list event :=
  [Call 100000;
   PageArrives 0 (PageOk [call_row "rec1" 0 "https://r/1.wav"] "");
   HeadArrives 0 0 (HeadAnswer true (Some 96044))].

(** A client that has hung up before the first fetch. *)
Definition hung_up : server := run boot [Subscribe 0; Close 0].
(** * Properties *)

(** ** The duration histogram *)

Section Histogram.
Import Analytics.

(** Case analysis on every comparison with a bucket boundary. *)
Ltac bounds :=
  repeat match goal with
         | |- context [bool_decide ?P] => destruct (bool_decide_reflect P); simpl
         end.

Lemma foldl_count_record (l : list record) (b : buckets) :
  foldl count_record b l = shifted b l.
Proof.
  revert b; induction l as [|r l IH]; intros b.
  - destruct b; unfold shifted, count; simpl.
    by rewrite !Nat.add_0_r.
  - simpl. rewrite IH. clear IH.
    unfold shifted, count, count_record, within; simpl.
    destruct b as [b0 b1 b2 b3 b4 b5].
    destruct (probedDuration r) as [d|]; [|done].
    unfold bump.
    bounds; try lia; f_equal; lia.
Qed.

Lemma hits_positive (r : record) :
  length (hits r) = if positive_duration r then 1%nat else 0%nat.
Proof.
  unfold hits, within, positive_duration, ranges; simpl.
  destruct (probedDuration r) as [d|]; [|done].
  bounds; try done; lia.
Qed.

Lemma count_cons (p : record → bool) (r : record) (l : list record) :
  count p (r :: l) = ((if p r then 1 else 0) + count p l)%nat.
Proof. unfold count; simpl. by destruct (p r). Qed.

Lemma total_shifted (l : list record) (b : buckets) :
  total (shifted b l) = (total b + count positive_duration l)%nat.
Proof.
  induction l as [|r l IH].
  - unfold shifted, total, count; simpl. lia.
  - revert IH. unfold shifted, total; simpl. rewrite !count_cons.
    pose proof (hits_positive r) as H. revert H.
    unfold hits, ranges; simpl.
    destruct (within 0 (Some 30) r), (within 30 (Some 60) r),
      (within 60 (Some 120) r), (within 120 (Some 300) r),
      (within 300 (Some 600) r), (within 600 None r),
      (positive_duration r); simpl; lia.
Qed.

(** C10. In the duration histogram of the analytics endpoint every bucket
    holds the number of records whose [probedDuration] lies in its range
    -- (0,30], (30,60], (60,120], (120,300], (300,600], (600,..) --; a
    record falls in exactly one of the six ranges when its [probedDuration]
    is strictly positive and in none when it is zero, negative or missing;
    so the six counts add up to the number of records with a positive
    duration, whatever the size of the snapshot. *)
Theorem durationBuckets_counts_positive (all : list record) :
  durationBuckets all =
    Buckets (count (within 0 (Some 30)) all) (count (within 30 (Some 60)) all)
            (count (within 60 (Some 120)) all) (count (within 120 (Some 300)) all)
            (count (within 300 (Some 600)) all) (count (within 600 None) all)
  ∧ (∀ r, length (hits r) = if positive_duration r then 1%nat else 0%nat)
  ∧ (∀ r, positive_duration r = true ↔ ∃ d, probedDuration r = Some d ∧ 0 < d)
  ∧ total (durationBuckets all) = count positive_duration all.
Proof.
  unfold durationBuckets. rewrite foldl_count_record.
  split; [done|]. split; [apply hits_positive|]. split.
  - intros r. unfold positive_duration.
    destruct (probedDuration r) as [d|].
    + rewrite bool_decide_eq_true. naive_solver.
    + naive_solver.
  - by rewrite total_shifted.
Qed.

End Histogram.

(** ** The change detector *)

Section Changes.

Lemma oldMap_snoc (l : list record) (x : record) :
  oldMap (l ++ [x]) = <[id x := x]> (oldMap l).
Proof. unfold oldMap. by rewrite foldl_snoc. Qed.

Lemma oldMap_absent (l : list record) (i : string) :
  i ∉ id <$> l → oldMap l !! i = None.
Proof.
  induction l as [|x l IH] using rev_ind; intros Hi.
  - done.
  - rewrite oldMap_snoc. rewrite fmap_app, elem_of_app in Hi.
    rewrite lookup_insert_ne.
    + apply IH. tauto.
    + intros Heq. apply Hi. right. simpl. rewrite <- Heq. apply list_elem_of_here.
Qed.

Lemma oldMap_unique (l : list record) (r : record) :
  NoDup (id <$> l) → r ∈ l → oldMap l !! id r = Some r.
Proof.
  induction l as [|x l IH] using rev_ind; intros Hnd Hr.
  - by apply elem_of_nil in Hr.
  - rewrite oldMap_snoc.
    rewrite fmap_app in Hnd. apply NoDup_app in Hnd as (Hl & Hdisj & _).
    apply elem_of_app in Hr as [Hr|Hr].
    + rewrite lookup_insert_ne; [by apply IH|].
      intros Heq. apply (Hdisj (id r)).
      * by apply list_elem_of_fmap_2.
      * simpl. rewrite Heq. apply list_elem_of_here.
    + apply list_elem_of_singleton in Hr as ->. apply lookup_insert_eq.
Qed.

Lemma fold_put_agree (l : list record) (m1 m2 : gmap string record) (i : string) :
  m1 !! i = m2 !! i → foldl put m1 l !! i = foldl put m2 l !! i.
Proof.
  revert m1 m2; induction l as [|y l IH]; intros m1 m2 H; [done|].
  simpl. apply IH. unfold put.
  destruct (decide (id y = i)) as [->|Hne].
  - by rewrite !lookup_insert_eq.
  - by rewrite !lookup_insert_ne.
Qed.

Lemma oldMap_without (old1 old2 : list record) (x : record) (i : string) :
  i ≠ id x → oldMap (old1 ++ x :: old2) !! i = oldMap (old1 ++ old2) !! i.
Proof.
  intros Hne. unfold oldMap.
  rewrite !foldl_app. simpl. apply fold_put_agree.
  unfold put. by rewrite lookup_insert_ne.
Qed.

Lemma detectChanges_agree (old old' new : list record) :
  (∀ nr, nr ∈ new → oldMap old !! id nr = oldMap old' !! id nr) →
  detectChanges old new = detectChanges old' new.
Proof.
  unfold detectChanges.
  induction new as [|nr new IH]; intros H; [done|].
  simpl. f_equal.
  - unfold changes_of. rewrite H; [done|apply list_elem_of_here].
  - apply IH. intros ? ?. apply H. by apply list_elem_of_further.
Qed.

Lemma changes_of_same (m : gmap string record) (r : record) :
  m !! id r = Some r → changes_of m r = [].
Proof.
  intros H. unfold changes_of. rewrite H.
  destruct (decide (status r ≠ status r)); [done|].
  by destruct (decide (lastCallDate r ≠ lastCallDate r)).
Qed.

(** C4. [detectChanges] reports per new record, in the order of the new
    snapshot: a record whose id the old snapshot lacks is a new lead;
    otherwise, against the old record of that id, a changed status is a
    status change, followed by an appointment exactly when the status
    became "Booked"; with the status unchanged, a changed last-call date is
    a new call carrying the outcome; otherwise nothing.  A record of the old
    snapshot whose id the new one lacks changes nothing in the report.  On
    the example of the specification the report is StatusChange,
    AppointmentBooked, NewRecord, and a snapshot (its ids distinct, as
    record ids are) diffed against itself reports nothing. *)
Theorem detectChanges_spec :
  (∀ old n1 n2,
     detectChanges old (n1 ++ n2) = detectChanges old n1 ++ detectChanges old n2)
  ∧ (∀ old, detectChanges old [] = [])
  ∧ (∀ old nr, id nr ∉ id <$> old →
       detectChanges old [nr] = [new_lead (full_name nr)])
  ∧ (∀ old o nr, NoDup (id <$> old) → o ∈ old → id o = id nr →
       detectChanges old [nr] =
         if decide (status o ≠ status nr) then
           status_change (full_name nr) (status o) (status nr)
           :: (if decide (status nr = "Booked" ∧ status o ≠ "Booked")
               then [appointment_booked (full_name nr)] else [])
         else if decide (lastCallDate o ≠ lastCallDate nr)
              then [new_call (full_name nr) (callOutcome nr)]
              else [])
  ∧ (∀ old1 old2 x new, id x ∉ id <$> new →
       detectChanges (old1 ++ x :: old2) new = detectChanges (old1 ++ old2) new)
  ∧ detectChanges [lead "1" "New"] [lead "1" "Booked"; lead "2" "New"] =
      [status_change " " "New" "Booked"; appointment_booked " "; new_lead " "]
  ∧ (∀ snapshot, NoDup (id <$> snapshot) → detectChanges snapshot snapshot = []).
Proof.
  repeat split.
  - intros. unfold detectChanges. apply flat_map_app.
  - intros old nr Hnew. unfold detectChanges, changes_of; simpl.
    by rewrite (oldMap_absent _ _ Hnew).
  - intros old o nr Hnd Ho Hid. unfold detectChanges, changes_of; simpl.
    rewrite <- Hid, (oldMap_unique _ _ Hnd Ho), app_nil_r. done.
  - intros old1 old2 x new Hx. apply detectChanges_agree.
    intros nr Hnr. apply oldMap_without.
    intros Heq. apply Hx. rewrite <- Heq. by apply list_elem_of_fmap_2.
  - intros snapshot Hnd. unfold detectChanges.
    assert (H : ∀ r, r ∈ snapshot → changes_of (oldMap snapshot) r = []).
    { intros r Hr. apply changes_of_same. by apply oldMap_unique. }
    revert H. generalize (oldMap snapshot) as m.
    induction snapshot as [|r l IH]; intros m H; [done|].
    simpl. rewrite H by apply list_elem_of_here. simpl.
    apply IH.
    + by apply NoDup_cons in Hnd as [_ ?].
    + intros ? ?. apply H. by apply list_elem_of_further.
Qed.

(** The report of a snapshot against itself, on two records. *)
Lemma detectChanges_spec_witness :
  detectChanges [lead "1" "New"; lead "2" "New"] [lead "1" "New"; lead "2" "New"] = [].
Proof.
  apply (proj2 (proj2 (proj2 (proj2 (proj2 (proj2 detectChanges_spec)))))).
  apply NoDup_cons. split.
  - intros H. apply list_elem_of_singleton in H. discriminate H.
  - apply NoDup_cons. split; [apply not_elem_of_nil|apply NoDup_nil_2].
Defined.

End Changes.

(** ** The broadcaster *)

Section Broadcaster.

Lemma broadcast_quiet sockets event (cs : list nat) (w : wire_t) :
  Forall (λ c, raises sockets c = false) cs →
  broadcast sockets event cs w = (w ++ frames sockets event cs, Normal).
Proof.
  revert w; induction cs as [|c cs IH]; intros w Hq.
  - unfold frames; simpl. by rewrite app_nil_r.
  - apply Forall_cons in Hq as [Hc Hq]. simpl.
    unfold raises in Hc. apply bool_decide_eq_false in Hc.
    unfold frames, accepts; simpl.
    destruct (socket_of sockets c) eqn:E; simpl.
    + rewrite IH by done. by rewrite <- app_assoc.
    + by rewrite IH.
    + done.
Qed.

Lemma broadcast_raise sockets event (before after : list nat) (c : nat) (w : wire_t) :
  Forall (λ c, raises sockets c = false) before →
  raises sockets c = true →
  broadcast sockets event (before ++ c :: after) w
  = (w ++ frames sockets event before, Thrown).
Proof.
  revert w; induction before as [|b before IH]; intros w Hq Hc.
  - unfold raises in Hc. apply bool_decide_eq_true in Hc.
    unfold frames; simpl. by rewrite Hc, app_nil_r.
  - apply Forall_cons in Hq as [Hb Hq]. simpl.
    unfold raises in Hb. apply bool_decide_eq_false in Hb.
    unfold frames, accepts; simpl.
    destruct (socket_of sockets b) eqn:E; simpl.
    + rewrite IH by done. by rewrite <- app_assoc.
    + by rewrite IH.
    + done.
Qed.

Lemma commit_sseClients t now allRecords mapped s :
  sseClients (commit t now allRecords mapped s) = sseClients s.
Proof.
  unfold commit. destruct (records (cache s)); [|done].
  by destruct (broadcast_all _ _ _ _) as [w []].
Qed.

Lemma step_sseClients (s : server) (e : event) :
  (∀ c, e ≠ Subscribe c ∧ e ≠ Close c) →
  sseClients (step s e) = sseClients s.
Proof.
  intros He. destruct e as [now|t resp|t i resp| |c|c|c o]; simpl.
  - unfold fetchAllRecords_call. by destruct (fresh _ _).
  - destruct (tasks s !! t) as [[]|]; try done.
    unfold fetchAllRecords_page. destruct resp; try done.
    case_decide; [|done].
    unfold after_pages. case_match; [apply commit_sseClients|done].
  - destruct (tasks s !! t) as [[]|]; try done.
    unfold fetchAllRecords_head.
    destruct (pending !! i) as [[url|]|]; try done.
    destruct (probeWavDuration_resume _ _ _) as [v dc].
    case_match; [by rewrite commit_sseClients|done].
  - done.
  - by destruct (He c) as [? _].
  - by destruct (He c) as [_ ?].
  - done.
Qed.

(** C9, as the code has it. [broadcast] writes the event to the subscribed
    channels in the order of the set and handles no failure.  When no write
    raises, every accepting channel gets the frame, also those that come
    after a channel whose write was discarded.  When the write of a channel
    raises, the loop ends there: the accepting channels before it have the
    frame, those after it get nothing, and the exception leaves
    [broadcast].  Nothing but the opening and the close of a connection
    ever changes the subscriber set: a failing channel stays subscribed. *)
Theorem broadcast_handles_no_failure :
  (∀ sockets event (cs : list nat) w,
     Forall (λ c, raises sockets c = false) cs →
     broadcast sockets event cs w = (w ++ frames sockets event cs, Normal))
  ∧ (∀ sockets event (before after : list nat) c w,
       Forall (λ c, raises sockets c = false) before →
       raises sockets c = true →
       broadcast sockets event (before ++ c :: after) w
       = (w ++ frames sockets event before, Thrown))
  ∧ (∀ s e, (∀ c, e ≠ Subscribe c ∧ e ≠ Close c) →
       sseClients (step s e) = sseClients s).
Proof.
  split; [|split].
  - apply broadcast_quiet.
  - apply broadcast_raise.
  - apply step_sseClients.
Qed.

(** Two subscribers, the first of which raises. *)
Lemma broadcast_handles_no_failure_witness :
  broadcast {[0%nat := Raised]} (new_lead "Ada Byron") ([] ++ 0%nat :: [1%nat]) []
  = ([] ++ frames {[0%nat := Raised]} (new_lead "Ada Byron") [], Thrown).
Proof.
  apply (proj1 (proj2 broadcast_handles_no_failure)).
  - apply Forall_nil_2.
  - reflexivity.
Defined.

(** C9 fails on the code. With the write of client 0 raising, client 1 gets
    no frame of the refresh and client 0 is still subscribed; with the
    write of client 0 discarded, client 1 gets both frames and client 0 is
    still subscribed. *)
Lemma broadcast_failure_counterexample :
  wire (run boot (two_listeners ++ refresh_booked Raised))
    = [(0%nat, connected); (1%nat, connected)]
  ∧ sseClients (run boot (two_listeners ++ refresh_booked Raised)) = [0%nat; 1%nat]
  ∧ tasks (run boot (two_listeners ++ refresh_booked Raised)) !! 1%nat
    = Some (Rejected WriteRaised)
  ∧ wire (run boot (two_listeners ++ refresh_booked Discarded))
    = [(0%nat, connected); (1%nat, connected);
       (1%nat, status_change " " "New" "Booked");
       (1%nat, appointment_booked " ")]
  ∧ sseClients (run boot (two_listeners ++ refresh_booked Discarded))
    = [0%nat; 1%nat].
Proof. vm_compute. repeat split. Qed.

End Broadcaster.

(** ** The snapshot cache *)

Section Cache.

Lemma run_cons (s : server) (e : event) (es : list event) :
  run s (e :: es) = run (step s e) es.
Proof. reflexivity. Qed.

Lemma run_app (s : server) (es1 es2 : list event) :
  run s (es1 ++ es2) = run (run s es1) es2.
Proof. unfold run. apply foldl_app. Qed.

Lemma fetches_send (rs : list request) (s : server) :
  fetches (send rs s) =
  (fetches s + length (List.filter (λ r, bool_decide (r = GetPage "")) rs))%nat.
Proof. unfold fetches, send; simpl. by rewrite List.filter_app, length_app. Qed.

Lemma fetches_send_later (o : string) (s : server) :
  o ≠ "" → fetches (send [GetPage o] s) = fetches s.
Proof.
  intros Ho. rewrite fetches_send. simpl.
  rewrite bool_decide_eq_false_2; [simpl; lia|]. congruence.
Qed.

Lemma fetches_send_heads (starts : list probe_step) (s : server) :
  fetches (send (heads starts) s) = fetches s.
Proof.
  rewrite fetches_send.
  assert (List.filter (λ r, bool_decide (r = GetPage "")) (heads starts) = []) as ->;
    [|simpl; lia].
  unfold heads. induction starts as [|[v|u] starts IH]; simpl; auto.
Qed.

Lemma same_store_refl (s : server) : same_store s s.
Proof. by unfold same_store. Qed.

Lemma same_store_trans (s1 s2 s3 : server) :
  same_store s1 s2 → same_store s2 s3 → same_store s1 s3.
Proof. unfold same_store. intros (?&?&?&?&?) (?&?&?&?&?). repeat split; congruence. Qed.

(** The shape of the state after lines 113-122. *)
Lemma commit_shape t now allRecords mapped (s : server) :
  ∃ w k,
    commit t now allRecords mapped s =
      Server (Cache (Some (attach (durationCache s) mapped)) (Some allRecords) now)
             (durationCache s) (sseClients s) (sockets s) w
             (<[t := k]> (tasks s)) (net s)
    ∧ (k = Resolved (attach (durationCache s) mapped) ∨ k = Rejected WriteRaised).
Proof.
  unfold commit. destruct (records (cache s)) as [p|].
  - destruct (broadcast_all _ _ _ _) as [w []]; eexists _, _; split; eauto.
  - eexists _, _; split; eauto.
Qed.

(** An answer to call [t] keeps it on its course and opens no fetch. *)
Lemma deliver_call_state (s : server) (t : nat) (now : Z) (a : answer) :
  (t < length (tasks s))%nat → call_state t now s →
  let s' := step s (deliver t a) in
  length (tasks s') = length (tasks s)
  ∧ fetches s' = fetches s
  ∧ call_state t now s'.
Proof.
  intros Ht Hc. unfold call_state in Hc.
  destruct a as [resp|i resp]; simpl;
    destruct (tasks s !! t) as [[now' acc|now' acc mapped pending|recs|e]|] eqn:E;
    try done; try (unfold call_state; rewrite E; done); subst now'.
  - unfold fetchAllRecords_page. destruct resp as [|st body|recs offset].
    + unfold call_state, set_task; simpl.
      rewrite length_insert, list_lookup_insert_eq by done. done.
    + unfold call_state, set_task; simpl.
      rewrite length_insert, list_lookup_insert_eq by done. done.
    + case_decide.
      * unfold after_pages. case_match.
        -- destruct (commit_shape t now (acc ++ recs) (map normalize (acc ++ recs)) s)
             as (w & k & -> & Hk).
           unfold call_state, fetches; simpl.
           rewrite length_insert, list_lookup_insert_eq by done.
           by destruct Hk as [-> | ->].
        -- unfold call_state. split; [|split].
           ++ simpl. by rewrite length_insert.
           ++ apply (fetches_send_heads _ s).
           ++ simpl. by rewrite list_lookup_insert_eq.
      * unfold call_state. split; [|split].
        -- simpl. by rewrite length_insert.
        -- by apply (fetches_send_later _ s).
        -- simpl. by rewrite list_lookup_insert_eq.
  - unfold fetchAllRecords_head.
    destruct (pending !! i) as [[url|]|];
      try (unfold call_state; rewrite E; done).
    destruct (probeWavDuration_resume url resp (durationCache s)) as [v dc].
    case_match.
    + destruct (commit_shape t now acc mapped (with_durationCache dc s))
        as (w & k & -> & Hk).
      unfold call_state, fetches; simpl.
      rewrite length_insert, list_lookup_insert_eq by done.
      by destruct Hk as [-> | ->].
    + unfold call_state, fetches; simpl.
      rewrite length_insert, list_lookup_insert_eq by done. done.
Qed.

Lemma answers_call_state (answers : list answer) (s : server) (t : nat) (now : Z) :
  (t < length (tasks s))%nat → call_state t now s →
  let s' := run s (map (deliver t) answers) in
  length (tasks s') = length (tasks s)
  ∧ fetches s' = fetches s
  ∧ call_state t now s'.
Proof.
  revert s; induction answers as [|a answers IH]; intros s Ht Hc; [done|].
  simpl map. rewrite run_cons.
  destruct (deliver_call_state s t now a Ht Hc) as (Hl & Hf & Hc').
  destruct (IH (step s (deliver t a))) as (Hl' & Hf' & Hc''); [lia|done|].
  simpl. split; [congruence|]. split; [congruence|done].
Qed.

(** A call on a cache that is not fresh opens a fetch. *)
Lemma call_refetches (s : server) (now : Z) :
  fresh (cache s) now = None →
  step s (Call now) =
    send [GetPage ""] (with_tasks (tasks s ++ [AwaitPage now []]) s).
Proof. intros H. simpl. unfold fetchAllRecords_call. by rewrite H. Qed.

(** A call on a fresh cache returns what is cached and asks nothing. *)
Lemma call_fresh (s : server) (now : Z) (recs : list record) :
  records (cache s) = Some recs → now - ts (cache s) < CACHE_TTL →
  step s (Call now) = with_tasks (tasks s ++ [Resolved recs]) s.
Proof.
  intros Hr Ht. simpl. unfold fetchAllRecords_call, fresh.
  by rewrite Hr, bool_decide_eq_true_2.
Qed.

(** C2. A read on a cache that holds a snapshot younger than the TTL
    ([now - ts < 20000]) returns that snapshot at once: no request goes
    upstream and nothing else in the process changes.  So when a first read
    had to fetch and returned a snapshot, a second read less than the TTL
    after the first was started returns the same snapshot, and the two reads
    together have opened exactly one upstream fetch. *)
Theorem fresh_read_fetches_nothing :
  (∀ s now recs,
     records (cache s) = Some recs → now - ts (cache s) < CACHE_TTL →
     step s (Call now) = with_tasks (tasks s ++ [Resolved recs]) s
     ∧ net (step s (Call now)) = net s
     ∧ same_store s (step s (Call now)))
  ∧ (∀ s now1 now2 answers recs,
       fresh (cache s) now1 = None →
       let t := length (tasks s) in
       let s1 := run s (Call now1 :: map (deliver t) answers) in
       tasks s1 !! t = Some (Resolved recs) →
       now2 - now1 < CACHE_TTL →
       let s2 := step s1 (Call now2) in
       tasks s2 !! length (tasks s1) = Some (Resolved recs)
       ∧ fetches s2 = S (fetches s)).
Proof.
  split.
  - intros s now recs Hr Ht. rewrite (call_fresh s now recs Hr Ht).
    repeat split.
  - intros s now1 now2 answers recs Hstale t s1 Hres Hnow s2.
    subst s1 s2. rewrite run_cons, call_refetches in * by done.
    set (s0 := send _ _) in *.
    destruct (answers_call_state answers s0 t now1) as (Hl & Hf & Hc).
    + subst s0 t; simpl. rewrite length_app; simpl; lia.
    + subst s0 t. unfold call_state; simpl. by rewrite list_lookup_middle.
    + simpl in Hl, Hf, Hc. unfold call_state in Hc. rewrite Hres in Hc.
      destruct Hc as [Hrec Hts].
      rewrite (call_fresh _ now2 recs Hrec) by (rewrite Hts; done).
      split.
      * simpl. by rewrite list_lookup_middle.
      * unfold fetches at 1; simpl. fold (fetches (run s0 (map (deliver t) answers))).
        rewrite Hf. subst s0. rewrite fetches_send. unfold fetches; simpl. lia.
Qed.

(** The first read of the process, and a second one ten seconds later. *)
Lemma fresh_read_fetches_nothing_witness :
  fetches (step (run boot (Call 100000
                  :: map (deliver 0) [Page (PageOk [row "rec1" "New"] "")]))
                (Call 110000))
  = 1%nat.
Proof.
  refine (proj2 (proj2 fresh_read_fetches_nothing boot 100000 110000
            [Page (PageOk [row "rec1" "New"] "")]
            (attach ∅ [normalize (row "rec1" "New")]) _ _ _)).
  - reflexivity.
  - reflexivity.
  - reflexivity.
Defined.

Lemma fresh_later (c : cache_t) (now now' : Z) :
  fresh c now = None → now ≤ now' → fresh c now' = None.
Proof.
  unfold fresh. destruct (records c); [|done].
  repeat case_bool_decide; try done; lia.
Qed.

Lemma more_pages (t : nat) (now : Z) (pages : list (list raw_record * string))
    (s : server) (acc : list raw_record) :
  tasks s !! t = Some (AwaitPage now acc) →
  Forall (λ p, p.2 ≠ "") pages →
  let s' := run s (map (PageArrives t) (map more pages)) in
  tasks s' !! t = Some (AwaitPage now (acc ++ concat (map fst pages)))
  ∧ same_store s s'
  ∧ fetches s' = fetches s.
Proof.
  revert s acc; induction pages as [|[recs offset] pages IH]; intros s acc Ht Hp.
  - simpl. rewrite app_nil_r. by split; [|split; [apply same_store_refl|]].
  - apply Forall_cons in Hp as [Ho Hp]. simpl in Ho.
    simpl map. rewrite run_cons.
    assert (Hlt : (t < length (tasks s))%nat) by (by eapply lookup_lt_Some).
    set (s1 := step s (PageArrives t (more (recs, offset)))).
    assert (H1 : tasks s1 !! t = Some (AwaitPage now (acc ++ recs))
                 ∧ same_store s s1 ∧ fetches s1 = fetches s).
    { subst s1. simpl. rewrite Ht. unfold fetchAllRecords_page.
      rewrite decide_False by done. split; [|split].
      - simpl. by rewrite list_lookup_insert_eq.
      - by unfold same_store.
      - by apply (fetches_send_later _ s). }
    destruct H1 as (Ht1 & Hs1 & Hf1).
    destruct (IH s1 (acc ++ recs) Ht1 Hp) as (Ht2 & Hs2 & Hf2).
    simpl in *. rewrite <- app_assoc in Ht2. split; [done|].
    split; [by eapply same_store_trans|congruence].
Qed.

(** C3. When a page request of a refetching read fails -- the transport
    fails or the response is not ok -- the read ends with that error and the
    module state (the cache with its records, raw payload and time stamp,
    the duration cache, the subscribers) is what it was.  This holds for the
    step at which any suspended read gets the failing answer, and, from the
    call on, for a read that fetched any number of pages before the failing
    one; a read made afterwards, the clock not having gone back, opens a
    new fetch. *)
Theorem failed_fetch_keeps_cache :
  (∀ s t now acc bad err,
     tasks s !! t = Some (AwaitPage now acc) → failed bad = Some err →
     tasks (step s (PageArrives t bad)) !! t = Some (Rejected err)
     ∧ same_store s (step s (PageArrives t bad)))
  ∧ (∀ s now pages bad err now',
       fresh (cache s) now = None →
       Forall (λ p, p.2 ≠ "") pages →
       failed bad = Some err →
       now ≤ now' →
       let t := length (tasks s) in
       let s' := run s (Call now :: map (PageArrives t) (map more pages ++ [bad])) in
       tasks s' !! t = Some (Rejected err)
       ∧ same_store s s'
       ∧ fetches (step s' (Call now')) = S (fetches s')).
Proof.
  assert (Hone : ∀ s t now acc bad err,
     tasks s !! t = Some (AwaitPage now acc) → failed bad = Some err →
     tasks (step s (PageArrives t bad)) !! t = Some (Rejected err)
     ∧ same_store s (step s (PageArrives t bad))).
  { intros s t now acc bad err Ht Hbad. simpl. rewrite Ht.
    assert (Hlt : (t < length (tasks s))%nat) by (by eapply lookup_lt_Some).
    unfold fetchAllRecords_page.
    destruct bad as [|st body|recs offset]; simpl in Hbad; simplify_eq; simpl;
      (split; [by rewrite list_lookup_insert_eq|by unfold same_store]). }
  split; [exact Hone|].
  intros s now pages bad err now' Hstale Hpages Hbad Hnow t s'.
  subst s'. rewrite run_cons, call_refetches by done.
  rewrite map_app, run_app. simpl map.
  set (s0 := send _ _).
  assert (Ht0 : tasks s0 !! t = Some (AwaitPage now [])).
  { subst s0 t; simpl. by rewrite list_lookup_middle. }
  destruct (more_pages t now pages s0 [] Ht0 Hpages) as (Ht1 & Hs1 & _).
  set (s1 := run s0 _) in *. simpl in Ht1.
  destruct (Hone s1 t now _ bad err Ht1 Hbad) as (Ht2 & Hs2).
  change (run s1 [PageArrives t bad]) with (step s1 (PageArrives t bad)).
  set (s2 := step s1 _) in *.
  assert (Hs : same_store s s2).
  { eapply same_store_trans; [|exact Hs2].
    eapply same_store_trans; [|exact Hs1]. by unfold same_store. }
  split; [done|]. split; [done|].
  rewrite call_refetches.
  - rewrite fetches_send. unfold fetches; simpl. lia.
  - destruct Hs as (-> & _). by eapply fresh_later.
Qed.

(** A poll of [warmed_up] whose second page request is answered 503. *)
Lemma failed_fetch_keeps_cache_witness :
  cache (run warmed_up
           (Call 130000
            :: map (PageArrives 1)
                 (map more [([row "rec2" "New"], "itrNextPage")]
                  ++ [PageNotOk 503 "busy"])))
  = cache warmed_up.
Proof.
  refine (proj1 (proj1 (proj2 (proj2 failed_fetch_keeps_cache warmed_up 130000
            [([row "rec2" "New"], "itrNextPage")] (PageNotOk 503 "busy")
            (AirtableError 503 "busy") 140000 _ _ _ _)))).
  - reflexivity.
  - repeat constructor. discriminate.
  - reflexivity.
  - lia.
Defined.

Lemma calls_each_fetch (nows : list Z) (s : server) :
  Forall (λ now, fresh (cache s) now = None) nows →
  let s' := run s (map Call nows) in
  tasks s' = tasks s ++ map (λ now, AwaitPage now []) nows
  ∧ net s' = net s ++ map (λ _, GetPage "") nows
  ∧ same_store s s'.
Proof.
  revert s; induction nows as [|now nows IH]; intros s H.
  - simpl. rewrite !app_nil_r. by split; [|split; [|apply same_store_refl]].
  - apply Forall_cons in H as [Hnow H]. simpl map. rewrite run_cons.
    rewrite call_refetches by done. set (s0 := send _ _).
    destruct (IH s0) as (Ht & Hn & Hs); [done|].
    simpl in *. rewrite Ht, Hn. subst s0; simpl. rewrite <- !app_assoc.
    split; [done|]. split; [done|]. done.
Qed.

Lemma broadcast_all_quiet sockets (events : list sse_event) (cs : list nat) (w : wire_t) :
  Forall (λ c, raises sockets c = false) cs →
  ∃ w', broadcast_all sockets events cs w = (w', Normal).
Proof.
  intros Hq. revert w; induction events as [|e events IH]; intros w.
  - by eexists.
  - simpl. rewrite broadcast_quiet by done. apply IH.
Qed.

(** C1, as the code has it. The cache has no notion of a fetch in flight:
    every read that finds the snapshot stale opens a fetch of its own.  N
    reads made before any answer arrives leave N calls suspended on N first
    page requests, and the module state as it was; and a call whose last
    page arrives (no probe being needed, no subscriber raising) returns and
    caches the snapshot built from the pages it asked for itself. *)
Theorem concurrent_reads_each_fetch :
  (∀ s nows,
     Forall (λ now, fresh (cache s) now = None) nows →
     let s' := run s (map Call nows) in
     tasks s' = tasks s ++ map (λ now, AwaitPage now []) nows
     ∧ net s' = net s ++ map (λ _, GetPage "") nows
     ∧ fetches s' = (fetches s + length nows)%nat
     ∧ same_store s s')
  ∧ (∀ s t now acc recs,
       tasks s !! t = Some (AwaitPage now acc) →
       toProbe (durationCache s) (map normalize (acc ++ recs)) = [] →
       Forall (λ c, raises (sockets s) c = false) (sseClients s) →
       let s' := step s (PageArrives t (PageOk recs "")) in
       let mine := attach (durationCache s) (map normalize (acc ++ recs)) in
       tasks s' !! t = Some (Resolved mine)
       ∧ records (cache s') = Some mine).
Proof.
  split.
  - intros s nows H s'. destruct (calls_each_fetch nows s H) as (Ht & Hn & Hs).
    fold s' in Ht, Hn, Hs. split; [done|]. split; [done|]. split; [|done].
    unfold fetches. rewrite Hn, List.filter_app, length_app. f_equal.
    clear. induction nows; simpl; auto.
  - intros s t now acc recs Ht Hp Hq s' mine. subst s'. simpl. rewrite Ht.
    assert (Hlt : (t < length (tasks s))%nat) by (by eapply lookup_lt_Some).
    unfold fetchAllRecords_page. cbv zeta.
    unfold after_pages. cbv zeta. rewrite Hp. simpl.
    unfold commit. fold mine. destruct (records (cache s)) as [p|]; simpl.
    + destruct (broadcast_all_quiet (sockets s) (detectChanges p mine)
                  (sseClients s) (wire s) Hq) as [w ->].
      simpl. by rewrite list_lookup_insert_eq.
    + by rewrite list_lookup_insert_eq.
Qed.

(** Three readers on the stale snapshot of [warmed_up]. *)
Lemma concurrent_reads_each_fetch_witness :
  fetches (run warmed_up (map Call [130000; 130000; 130001]))
  = (fetches warmed_up + 3)%nat.
Proof.
  refine (proj1 (proj2 (proj2
    (proj1 concurrent_reads_each_fetch warmed_up [130000; 130000; 130001] _)))).
  repeat constructor.
Defined.

(** C1 fails on the code. Two reads on a stale snapshot open two fetches,
    and the callers get different snapshots when the table changes between
    the two answers. *)
Lemma coalescing_counterexample :
  fresh (cache warmed_up) 130000 = None
  ∧ fetches (run warmed_up two_readers) = (fetches warmed_up + 2)%nat
  ∧ returned_statuses (run warmed_up two_readers) 1 = Some ["New"]
  ∧ returned_statuses (run warmed_up two_readers) 2 = Some ["Booked"].
Proof. vm_compute. repeat split. Qed.

Lemma probed_rule (dc : gmap string Z) (r : record) :
  probed dc r = duration_rule dc r.
Proof.
  unfold probed, duration_rule.
  destruct (decide (callDuration r ≠ 0)) as [Hn|Hn];
    destruct (decide (callDuration r = 0)) as [H0|H0]; try tauto; simpl.
  - destruct (decide (callDuration r = 0)); tauto.
  - destruct (dc !! recordingUrl r) as [v|]; simpl; [|done].
    destruct (decide (v = 0)); congruence.
Qed.

Lemma attach_rule (dc : gmap string Z) (mapped : list record) :
  Forall (λ r, probedDuration r = Some (duration_rule dc r)) (attach dc mapped).
Proof.
  unfold attach. induction mapped as [|r mapped IH]; simpl; constructor; [|done].
  simpl. f_equal. rewrite probed_rule. by unfold duration_rule.
Qed.

(** A call that returns after fetching returns what line 113 attached with
    the duration cache of that moment, and that is what the cache holds. *)
Lemma step_resolves (s : server) (e : event) (t : nat) (result : list record) :
  in_flight (tasks s !! t) →
  tasks (step s e) !! t = Some (Resolved result) →
  ∃ mapped,
    result = attach (durationCache (step s e)) mapped
    ∧ records (cache (step s e)) = Some result.
Proof.
  intros Hin Hres.
  assert (Hlt : (t < length (tasks s))%nat).
  { destruct (tasks s !! t) eqn:E; [by eapply lookup_lt_Some|done]. }
  assert (Hsame : tasks (step s e) !! t = tasks s !! t → False).
  { intros Heq. rewrite Hres in Heq. rewrite <- Heq in Hin. exact Hin. }
  destruct e as [now|t' resp|t' i resp| |c|c|c o]; simpl in *.
  - exfalso. apply Hsame. unfold fetchAllRecords_call.
    destruct (fresh _ _); simpl; by rewrite lookup_app_l.
  - destruct (tasks s !! t') as [[now acc| | |]|] eqn:E; try (by exfalso; apply Hsame).
    destruct (decide (t = t')) as [->|Hne].
    + unfold fetchAllRecords_page in *.
      destruct resp as [|st body|recs offset]; simpl in *;
        try (rewrite list_lookup_insert_eq in Hres by done; discriminate).
      case_decide.
      * unfold after_pages in *. case_match.
        -- destruct (commit_shape t' now (acc ++ recs) (map normalize (acc ++ recs)) s)
             as (w & k & Hc & Hk).
           rewrite Hc in *. simpl in *.
           rewrite list_lookup_insert_eq in Hres by done.
           destruct Hk as [-> | ->]; simplify_eq. eauto.
        -- simpl in Hres. rewrite list_lookup_insert_eq in Hres by done. discriminate.
      * simpl in Hres. rewrite list_lookup_insert_eq in Hres by done. discriminate.
    + exfalso. apply Hsame. unfold fetchAllRecords_page.
      destruct resp as [|st body|recs offset]; simpl;
        try (by rewrite list_lookup_insert_ne).
      case_decide; [|simpl; by rewrite list_lookup_insert_ne].
      unfold after_pages. case_match; [|simpl; by rewrite list_lookup_insert_ne].
      destruct (commit_shape t' now (acc ++ recs) (map normalize (acc ++ recs)) s)
        as (w & k & -> & _).
      simpl. by rewrite list_lookup_insert_ne.
  - destruct (tasks s !! t') as [[|now acc mapped pending| |]|] eqn:E;
      try (by exfalso; apply Hsame).
    unfold fetchAllRecords_head in *.
    destruct (pending !! i) as [[url|]|]; try (by exfalso; apply Hsame).
    destruct (probeWavDuration_resume url resp (durationCache s)) as [v dc].
    destruct (decide (t = t')) as [->|Hne].
    + case_match.
      * destruct (commit_shape t' now acc mapped (with_durationCache dc s))
          as (w & k & Hc & Hk).
        rewrite Hc in *. simpl in *.
        rewrite list_lookup_insert_eq in Hres by done.
        destruct Hk as [-> | ->]; simplify_eq. eauto.
      * simpl in Hres. rewrite list_lookup_insert_eq in Hres by done. discriminate.
    + exfalso. apply Hsame. case_match.
      * destruct (commit_shape t' now acc mapped (with_durationCache dc s))
          as (w & k & -> & _).
        simpl. by rewrite list_lookup_insert_ne.
      * simpl. by rewrite list_lookup_insert_ne.
  - by exfalso; apply Hsame.
  - exfalso. apply Hsame. destruct (socket_of _ _); try done;
      case_decide; done.
  - by exfalso; apply Hsame.
  - by exfalso; apply Hsame.
Qed.

(** C6, as the code has it. Every record of the snapshot that a read returns
    after fetching -- the snapshot the cache then holds -- has
    [probedDuration] equal to its explicit call duration when that is not
    zero, otherwise to the duration memoized for its recording reference
    when there is one, otherwise to 0.  For an explicit duration that is
    not negative this is the rule of the specification. *)
Theorem probedDuration_rule :
  (∀ s e t result,
     in_flight (tasks s !! t) →
     tasks (step s e) !! t = Some (Resolved result) →
     records (cache (step s e)) = Some result
     ∧ Forall (λ r, probedDuration r
                    = Some (duration_rule (durationCache (step s e)) r)) result)
  ∧ (∀ dc r, 0 ≤ callDuration r → duration_rule dc r = specified_duration dc r).
Proof.
  split.
  - intros s e t result Hin Hres.
    destruct (step_resolves s e t result Hin Hres) as (mapped & Hr & Hc).
    split; [done|]. rewrite Hr at 1. apply attach_rule.
  - intros dc r H. unfold duration_rule, specified_duration.
    case_decide; case_bool_decide; try lia; done.
Qed.

(** The first read of the process, on a row with 12 seconds of call. *)
Lemma probedDuration_rule_witness :
  records (cache (step (step boot (Call 100000))
     (PageArrives 0 (PageOk [call_row "rec1" 12 ""] ""))))
  = Some (attach ∅ [normalize (call_row "rec1" 12 "")]).
Proof.
  apply (proj1 (proj1 probedDuration_rule (step boot (Call 100000))
    (PageArrives 0 (PageOk [call_row "rec1" 12 ""] "")) 0%nat
    (attach ∅ [normalize (call_row "rec1" 12 "")]) I eq_refl)).
Defined.

(** C6 fails on the code. A row whose duration column holds -5 keeps -5 as
    its [probedDuration], where the rule of the specification gives 0. *)
Lemma negative_duration_counterexample :
  (probedDuration <$> default [] (records (cache (run boot negative_duration))))
    = [Some (-5)]
  ∧ (specified_duration (durationCache (run boot negative_duration))
       <$> default [] (records (cache (run boot negative_duration))))
    = [0].
Proof. vm_compute. split; reflexivity. Qed.

End Cache.

(** ** The duration probe *)

Section Probe.

(** C5, as the code has it. [probeWavDuration] returns 0 at once for the
    empty url and the memoized value at once for a url it has memoized.  It
    memoizes only a successful answer whose length exceeds the 44 bytes of
    the header: after such a first call a second call with the same url
    makes no request and returns the value of the first.  A first call that
    fails -- no response, a response that is not ok, a length of at most
    44 -- returns 0 and memoizes nothing, so a second call with that url
    makes a new request. *)
Theorem probe_memoizes_success_only :
  (∀ dc, probeWavDuration_call "" dc = ProbeDone 0)
  ∧ (∀ url dc d, url ≠ "" → dc !! url = Some d →
       probeWavDuration_call url dc = ProbeDone d)
  ∧ (∀ url dc len, url ≠ "" → 44 < len →
       let first := probeWavDuration_resume url (HeadAnswer true (Some len)) dc in
       first.1 = wav_seconds len
       ∧ probeWavDuration_call url first.2 = ProbeDone first.1)
  ∧ (∀ url dc resp, url ≠ "" → dc !! url = None → no_duration resp →
       let first := probeWavDuration_resume url resp dc in
       first = (0, dc)
       ∧ probeWavDuration_call url first.2 = ProbeHead url).
Proof.
  split; [done|]. split; [|split].
  - intros url dc d Hu Hd. unfold probeWavDuration_call.
    by rewrite decide_False, Hd.
  - intros url dc len Hu Hlen first. subst first.
    unfold probeWavDuration_resume; simpl.
    rewrite bool_decide_eq_false_2 by lia. simpl. split; [done|].
    unfold probeWavDuration_call. by rewrite decide_False, lookup_insert_eq.
  - intros url dc resp Hu Hd Hno first.
    assert (Hfirst : first = (0, dc)).
    { subst first. unfold probeWavDuration_resume.
      destruct resp as [|ok cl]; [done|]. simpl in Hno.
      destruct ok; simpl; [|done].
      destruct Hno as [?|Hle]; [done|]. by rewrite bool_decide_eq_true_2. }
    split; [done|]. rewrite Hfirst. simpl.
    unfold probeWavDuration_call. by rewrite decide_False, Hd.
Qed.

(** A recording of ten seconds. *)
Lemma probe_memoizes_success_only_witness :
  probeWavDuration_call "https://r/1.wav"
    (probeWavDuration_resume "https://r/1.wav" (HeadAnswer true (Some 480044)) ∅).2
  = ProbeDone 10.
Proof.
  refine (proj2 (proj1 (proj2 (proj2 probe_memoizes_success_only))
            "https://r/1.wav" ∅ 480044 _ _)).
  - discriminate.
  - lia.
Defined.

(** C5 fails on the code. After a first probe that was answered 404 nothing
    is memoized and a second call with the same url makes a second request;
    two polls of a row with that recording send two [HEAD] requests. *)
Lemma probe_failure_counterexample :
  probeWavDuration_resume "https://r/1.wav" (HeadAnswer false None) ∅ = (0, ∅)
  ∧ probeWavDuration_call "https://r/1.wav"
      (probeWavDuration_resume "https://r/1.wav" (HeadAnswer false None) ∅).2
    = ProbeHead "https://r/1.wav"
  ∧ List.filter (λ r, bool_decide (r = Head "https://r/1.wav"))
      (net (run boot probe_twice))
    = [Head "https://r/1.wav"; Head "https://r/1.wav"].
Proof. vm_compute. repeat split. Qed.

End Probe.

(** ** The leads view *)

Section Sorting.

Context {A : Type} (cmp : A → A → Z).

Lemma insert_by_perm (x : A) (l : list A) : insert_by cmp x l ≡ₚ x :: l.
Proof.
  induction l as [|y l IH]; simpl; [done|].
  case_bool_decide; [done|]. rewrite IH. apply Permutation_swap.
Qed.

Lemma sort_perm (l : list A) : sort cmp l ≡ₚ l.
Proof.
  induction l as [|x l IH]; simpl; [done|].
  by rewrite insert_by_perm, IH.
Qed.

Lemma consistent_sub (l k : list A) :
  (∀ a, a ∈ k → a ∈ l) → consistent cmp l → consistent cmp k.
Proof.
  intros Hs [Ht Htr]. split.
  - intros a b Ha Hb. apply Ht; by apply Hs.
  - intros a b c Ha Hb Hc. apply Htr; by apply Hs.
Qed.

Lemma consistent_perm (l k : list A) : l ≡ₚ k → consistent cmp l → consistent cmp k.
Proof. intros Hp. apply consistent_sub. intros a Ha. by rewrite Hp. Qed.

Lemma consistent_tail (x : A) (l : list A) : consistent cmp (x :: l) → consistent cmp l.
Proof. apply consistent_sub. intros a Ha. by apply list_elem_of_further. Qed.

Lemma insert_by_ordered (x : A) (l : list A) :
  consistent cmp (x :: l) → ordered cmp l → ordered cmp (insert_by cmp x l).
Proof.
  unfold ordered. intros Hc Hl. induction Hl as [|y l Hl IH Hy]; simpl.
  - repeat constructor.
  - destruct Hc as [Ht Htr]. case_bool_decide as Hxy.
    + constructor; [by constructor|]. constructor; [done|].
      apply Forall_forall. intros z Hz.
      apply (Htr x y z); try done.
      * apply list_elem_of_here.
      * apply list_elem_of_further, list_elem_of_here.
      * by do 2 apply list_elem_of_further.
      * rewrite Forall_forall in Hy. by apply Hy.
    + constructor.
      * apply IH. apply (consistent_sub (x :: y :: l)); [|by split].
        intros a Ha. apply elem_of_cons in Ha as [->|Ha].
        -- apply list_elem_of_here.
        -- by do 2 apply list_elem_of_further.
      * rewrite insert_by_perm. constructor; [|done].
        apply Ht; [apply list_elem_of_here| |lia].
        apply list_elem_of_further, list_elem_of_here.
Qed.

Lemma sort_ordered (l : list A) : consistent cmp l → ordered cmp (sort cmp l).
Proof.
  induction l as [|x l IH]; intros Hc; simpl; [constructor|].
  apply insert_by_ordered.
  - apply (consistent_perm (x :: l)); [|done]. by rewrite sort_perm.
  - apply IH. by eapply consistent_tail.
Qed.

Lemma ordered_take_drop (l : list A) (n m : nat) :
  ordered cmp l → ordered cmp (take n (drop m l)).
Proof.
  unfold ordered. intros H.
  rewrite <- (take_drop m l) in H. apply StronglySorted_app_1_r in H.
  rewrite <- (take_drop n (drop m l)) in H. by apply StronglySorted_app_1_l in H.
Qed.

End Sorting.

Lemma ordered_rev {A} (cmp : A → A → Z) (l : list A) :
  ordered cmp l → ordered (λ a b, cmp b a) (rev l).
Proof.
  unfold ordered. induction 1 as [|x l Hl IH Hx]; simpl; [constructor|].
  apply StronglySorted_app_2; [|done|repeat constructor].
  intros a b Ha Hb. apply list_elem_of_singleton in Hb as ->.
  rewrite Forall_forall in Hx. apply Hx.
  by apply list_elem_of_In, in_rev, list_elem_of_In.
Qed.

Lemma sort_ext {A} (c1 c2 : A → A → Z) (l : list A) :
  (∀ a b, c1 a b = c2 a b) → sort c1 l = sort c2 l.
Proof.
  intros H. induction l as [|x l IH]; simpl; [done|]. rewrite IH.
  generalize (sort c2 l) as k. induction k as [|y k IHk]; simpl; [done|].
  by rewrite H, IHk.
Qed.

Lemma sort_swapped_is_rev {A} (cmp : A → A → Z) (l : list A) :
  consistent cmp l → no_ties cmp l →
  sort (λ a b, cmp b a) l = rev (sort cmp l).
Proof.
  intros Hc Hn.
  apply (StronglySorted_unique_strong (λ a b, cmp b a ≤ 0)).
  - intros x1 x2 H1 H2 Hx Hy. symmetry. apply Hn; try done.
    + apply list_elem_of_In, in_rev, list_elem_of_In in H2.
      by rewrite sort_perm in H2.
    + by rewrite sort_perm in H1.
  - apply (sort_ordered (λ a b, cmp b a)). destruct Hc as [Ht Htr]. split.
    + intros a b Ha Hb. by apply Ht.
    + intros a b c Ha Hb Hc ? ?. by apply (Htr c b a).
  - apply (ordered_rev cmp). by apply sort_ordered.
  - rewrite sort_perm. rewrite <- Permutation_rev. by rewrite sort_perm.
Qed.

Section LeadsView.

Variable localeCompare : string → string → Z.

Abbreviation cmp := (compare_by localeCompare).

Lemma compare_by_desc (key dir : string) (a b : record) :
  dir ≠ "asc" → cmp key dir a b = cmp key "asc" b a.
Proof.
  intros Hd. unfold compare_by.
  destruct (decide (dir = "asc")) as [Ha|_]; [contradiction|].
  destruct (property key a), (property key b); reflexivity.
Qed.

Lemma how_many_pos (p : record → bool) (all : list record) (r : record) :
  r ∈ all → p r = true → (0 < how_many p all)%nat.
Proof.
  intros Hr Hp. unfold how_many.
  induction all as [|x all IH]; [by apply elem_of_nil in Hr|].
  simpl. apply elem_of_cons in Hr as [<-|Hr].
  - rewrite Hp. simpl. lia.
  - destruct (p x); simpl; [lia|by apply IH].
Qed.

(** C7, as the code has it. The stats block of the view response is computed
    from the whole snapshot and the clock alone: any two queries over a
    snapshot, read at the same clock, get the same block -- the counts by
    status, the calls of today and yesterday, the rates, the averages and
    the trend.  So whatever the query matches, a statistic is positive as
    soon as the snapshot holds a record that it counts: a booked lead for
    [totalBooked], a lead of the status for each status count, a called
    lead for [totalContacted]. *)
Theorem stats_cover_whole_snapshot :
  (∀ all clk q1 q2,
     r_stats (leads localeCompare all clk q1) = r_stats (leads localeCompare all clk q2))
  ∧ (∀ all clk q, r_stats (leads localeCompare all clk q) = computeStats all clk)
  ∧ (∀ all clk q r, r ∈ all →
       let st := r_stats (leads localeCompare all clk q) in
       (status r = "Booked" → 0 < totalBooked st)%nat
       ∧ (status r = "Ready to Call" → 0 < readyToCall st)%nat
       ∧ (status r = "Needs Retry" → 0 < needsRetry st)%nat
       ∧ (status r = "Callback Requested" → 0 < callbacksScheduled st)%nat
       ∧ (status r = "Currently Calling" → 0 < currentlyCalling st)%nat
       ∧ (lastCallDate r ≠ "" → 0 < totalContacted st)%nat).
Proof.
  split; [done|]. split; [done|].
  intros all clk q r Hr st. subst st. simpl.
  repeat split; intros H; apply (how_many_pos _ all r Hr);
    unfold is_status, called; by apply bool_decide_eq_true.
Qed.

(** C8, as the code has it. The comparator of the view compares two numbers
    by their difference and any other pair by [localeCompare] on their
    string forms; every direction but "asc" applies the same comparison
    with the arguments exchanged.  The records of the response are a page
    of the filtered records sorted by that comparator: a rearrangement of
    them which, the comparator being consistent on them, is ordered by it.
    The descending order is the reverse of the ascending one when the
    comparator is consistent and no two records tie. *)
Theorem view_sorted_by_comparator :
  (∀ key dir a b x y,
     property key a = VNum x → property key b = VNum y →
     cmp key dir a b = if decide (dir = "asc") then x - y else y - x)
  ∧ (∀ key dir a b,
       (∀ x y, ¬ (property key a = VNum x ∧ property key b = VNum y)) →
       cmp key dir a b =
         if decide (dir = "asc")
         then localeCompare (String_ (property key a)) (String_ (property key b))
         else localeCompare (String_ (property key b)) (String_ (property key a)))
  ∧ (∀ key dir a b, dir ≠ "asc" → cmp key dir a b = cmp key "asc" b a)
  ∧ (∀ all clk q,
       let c := cmp (q_sort q) (q_dir q) in
       r_records (leads localeCompare all clk q)
       = page_slice (at_least_1 (q_page q)) (clamp_limit (q_limit q))
                    (sort c (apply_filters q all))
       ∧ sort c (apply_filters q all) ≡ₚ apply_filters q all
       ∧ (consistent c (apply_filters q all) →
          ordered c (r_records (leads localeCompare all clk q))))
  ∧ (∀ key dir l,
       dir ≠ "asc" →
       consistent (cmp key "asc") l → no_ties (cmp key "asc") l →
       sort (cmp key dir) l = rev (sort (cmp key "asc") l)).
Proof.
  split; [|split; [|split; [|split]]].
  - intros key dir a b x y Ha Hb. unfold compare_by. by rewrite Ha, Hb.
  - intros key dir a b Hn. unfold compare_by.
    destruct (property key a) as [x|s] eqn:Ea, (property key b) as [y|s'] eqn:Eb;
      try reflexivity.
    exfalso. apply (Hn x y). by split.
  - apply compare_by_desc.
  - intros all clk q c. split; [done|]. split; [apply sort_perm|].
    intros Hc. simpl. fold c.
    assert (Ho : ordered c (sort c (apply_filters q all))) by by apply sort_ordered.
    unfold page_slice.
    destruct (at_least_1 (q_page q)), (clamp_limit (q_limit q));
      try constructor.
    by apply ordered_take_drop.
  - intros key dir l Hd Hc Hn.
    rewrite <- (sort_swapped_is_rev _ l Hc Hn).
    apply sort_ext. intros a b. by apply compare_by_desc.
Qed.

End LeadsView.

(** A snapshot with one booked lead, asked for a status no lead has. *)
Lemma stats_cover_whole_snapshot_witness :
  (0 < totalBooked (r_stats (leads code_units [fetched (row "rec1" "Booked")]
                              a_monday (with_status "Nope"))))%nat.
Proof.
  refine (proj1 (proj2 (proj2 (stats_cover_whole_snapshot code_units))
            [fetched (row "rec1" "Booked")] a_monday (with_status "Nope")
            (fetched (row "rec1" "Booked")) _) _).
  - apply list_elem_of_here.
  - reflexivity.
Defined.

(** C7 fails on the code. A snapshot that is not empty, of one lead that was
    never called, and a query that matches none of its records: every
    statistic of the response is zero. *)
Lemma nonempty_zero_stats_counterexample :
  [fetched (row "rec1" "New")] ≠ []
  ∧ r_records (leads code_units [fetched (row "rec1" "New")] a_monday
                 (with_status "Booked")) = []
  ∧ nothing_counted
      (r_stats (leads code_units [fetched (row "rec1" "New")] a_monday
                  (with_status "Booked"))).
Proof.
  split; [done|]. split; [reflexivity|].
  vm_compute. repeat split; repeat constructor.
Qed.

Ltac both_in H1 H2 :=
  apply elem_of_cons in H1 as [->|H1];
  [|apply list_elem_of_singleton in H1 as ->];
  (apply elem_of_cons in H2 as [->|H2];
   [|apply list_elem_of_singleton in H2 as ->]).

(** Two leads sorted on their ids. *)
Lemma view_sorted_by_comparator_witness :
  sort (compare_by code_units "id" "desc") two_ids
  = rev (sort (compare_by code_units "id" "asc") two_ids).
Proof.
  refine (proj2 (proj2 (proj2 (proj2 (view_sorted_by_comparator code_units))))
            "id" "desc" two_ids _ _ _).
  - discriminate.
  - split.
    + intros a b Ha Hb. both_in Ha Hb; vm_compute; congruence.
    + intros a b c Ha Hb Hc. both_in Ha Hb;
        (apply elem_of_cons in Hc as [->|Hc];
         [|apply list_elem_of_singleton in Hc as ->]);
        vm_compute; congruence.
  - intros a b Ha Hb. both_in Ha Hb; vm_compute; congruence.
Defined.

(** C8 fails on the code. Two leads that tie on the sort key come out in the
    order of the input for both directions: the descending order is not the
    reverse of the ascending one. *)
Lemma descending_not_reverse_counterexample :
  r_records (leads code_units tied a_monday (sorted_on "attemptCount" "asc")) = tied
  ∧ r_records (leads code_units tied a_monday (sorted_on "attemptCount" "desc")) = tied
  ∧ r_records (leads code_units tied a_monday (sorted_on "attemptCount" "desc"))
    ≠ rev (r_records (leads code_units tied a_monday (sorted_on "attemptCount" "asc"))).
Proof.
  split; [reflexivity|]. split; [reflexivity|].
  vm_compute. discriminate.
Qed.

(** * Further properties *)

(** ** Pages *)

Section Pages.

Lemma page_slice_valid (p l : Z) (xs : list record) :
  1 ≤ p → 1 ≤ l →
  page_slice (Num p) (Num l) xs
  = take (Z.to_nat l) (drop (Z.to_nat ((p - 1) * l)) xs).
Proof.
  intros Hp Hl. unfold page_slice. f_equal. nia.
Qed.

Lemma pages_upto (l : nat) (xs : list record) (n : nat) :
  concat (map (λ k, take l (drop (k * l) xs)) (seq 0 n)) = take (n * l) xs.
Proof.
  induction n as [|n IH]; [done|].
  rewrite seq_S, map_app, concat_app, IH. simpl. rewrite app_nil_r.
  rewrite take_take_drop. f_equal. lia.
Qed.

Lemma page_count_covers (total : nat) (l : Z) :
  1 ≤ l → Z.of_nat total ≤ (Z.of_nat total + l - 1) / l * l.
Proof.
  intros Hl.
  pose proof (Z.div_mod (Z.of_nat total + l - 1) l ltac:(lia)) as Hd.
  pose proof (Z.mod_pos_bound (Z.of_nat total + l - 1) l ltac:(lia)) as Hm.
  nia.
Qed.

(** The records of a response are never more than 100, and none when the
    page or the limit is not a number; the limit is brought into 1..100 and
    the page to at least 1. *)
Theorem page_is_bounded (lc : string → string → Z) (all : list record)
    (clk : clock) (q : query) :
  (length (r_records (leads lc all clk q)) ≤ 100)%nat
  ∧ (∀ l, limit (r_pagination (leads lc all clk q)) = Num l → 1 ≤ l ≤ 100
          ∧ (length (r_records (leads lc all clk q)) ≤ Z.to_nat l)%nat)
  ∧ (∀ p, page (r_pagination (leads lc all clk q)) = Num p → 1 ≤ p)
  ∧ (q_page q = NaN ∨ q_limit q = NaN → r_records (leads lc all clk q) = [])
  ∧ total_ (r_pagination (leads lc all clk q)) = length (apply_filters q all).
Proof.
  assert (Hlen : ∀ xs : list record, ∀ p l,
            (length (page_slice (at_least_1 p) (clamp_limit l) xs)
             ≤ match clamp_limit l with Num l => Z.to_nat l | NaN => 0 end)%nat).
  { intros xs [|p] [|l]; simpl; try lia.
    rewrite length_take. lia. }
  simpl. split; [|split; [|split; [|split]]].
  - specialize (Hlen (sort (compare_by lc (q_sort q) (q_dir q)) (apply_filters q all))
                     (q_page q) (q_limit q)).
    destruct (q_limit q) as [|l]; simpl in *; lia.
  - intros l Hl.
    specialize (Hlen (sort (compare_by lc (q_sort q) (q_dir q)) (apply_filters q all))
                     (q_page q) (q_limit q)).
    rewrite Hl in Hlen |- *. split; [|done].
    destruct (q_limit q); simpl in Hl; simplify_eq. lia.
  - intros p Hp. destruct (q_page q); simpl in Hp; simplify_eq. lia.
  - intros [-> | ->]; simpl; [done|]. by destruct (at_least_1 (q_page q)).
  - apply Permutation_length, sort_perm.
Qed.

Lemma pages_partition (l : Z) (xs : list record) :
  1 ≤ l →
  ∃ n : nat,
    page_count (length xs) (Num l) = Num (Z.of_nat n)
    ∧ concat (map (nth_page l xs) (seq 0 n)) = xs
    ∧ ∀ k, (n ≤ k)%nat → nth_page l xs k = [].
Proof.
  intros Hl. exists (Z.to_nat ((Z.of_nat (length xs) + l - 1) / l)).
  assert (H0 : 0 ≤ (Z.of_nat (length xs) + l - 1) / l)
    by (apply Z.div_pos; lia).
  pose proof (page_count_covers (length xs) l Hl) as Hc.
  split; [|split].
  - simpl. f_equal. lia.
  - erewrite map_ext.
    + rewrite (pages_upto (Z.to_nat l) xs). apply take_ge. nia.
    + intros k. unfold nth_page. rewrite page_slice_valid by lia.
      do 2 f_equal. nia.
  - intros k Hk. unfold nth_page. rewrite page_slice_valid by lia.
    rewrite drop_ge; [by rewrite take_nil|]. nia.
Qed.

(** Asking for the pages 1, 2, ... up to the page count of the response,
    with the same filters, sort and limit, gives every matching record once,
    in sorted order: the pages one after the other are the sorted list of
    the matching records.  Every later page is empty. *)
Theorem paging_covers_every_record (lc : string → string → Z)
    (all : list record) (clk : clock) (q : query) (l : Z) :
  q_limit q = Num l →
  ∃ n : nat,
    pages (r_pagination (leads lc all clk q)) = Num (Z.of_nat n)
    ∧ concat (map (λ k, r_records (leads lc all clk (on_page q (Z.of_nat k + 1))))
                  (seq 0 n))
      = sort (compare_by lc (q_sort q) (q_dir q)) (apply_filters q all)
    ∧ ∀ k, (n ≤ k)%nat →
        r_records (leads lc all clk (on_page q (Z.of_nat k + 1))) = [].
Proof.
  intros Hl.
  set (xs := sort (compare_by lc (q_sort q) (q_dir q)) (apply_filters q all)).
  set (l' := Z.max 1 (Z.min 100 l)).
  destruct (pages_partition l' xs ltac:(lia)) as (n & Hn & Hcat & Hlate).
  assert (Hpage : ∀ k, r_records (leads lc all clk (on_page q (Z.of_nat k + 1)))
                       = nth_page l' xs k).
  { intros k. unfold leads, nth_page; simpl. rewrite Hl. simpl.
    fold xs l'. rewrite Z.max_r by lia. done. }
  exists n. split; [|split].
  - simpl. rewrite Hl. simpl. fold l'.
    assert (length (sort (compare_by lc (q_sort q) (q_dir q)) (apply_filters q all))
            = length xs) as -> by done.
    exact Hn.
  - rewrite <- Hcat. f_equal. apply map_ext. intros k. apply Hpage.
  - intros k Hk. rewrite Hpage. by apply Hlate.
Qed.

(** 25 leads at 20 a page: 2 pages. *)
Lemma paging_covers_every_record_witness :
  ∃ n : nat,
    pages (r_pagination (leads code_units twenty_five a_monday (sorted_on "id" "asc")))
    = Num (Z.of_nat n)
    ∧ concat (map (λ k, r_records (leads code_units twenty_five a_monday
                                     (on_page (sorted_on "id" "asc") (Z.of_nat k + 1))))
                  (seq 0 n))
      = sort (compare_by code_units "id" "asc")
             (apply_filters (sorted_on "id" "asc") twenty_five)
    ∧ ∀ k, (n ≤ k)%nat →
        r_records (leads code_units twenty_five a_monday
                     (on_page (sorted_on "id" "asc") (Z.of_nat k + 1))) = [].
Proof.
  exact (paging_covers_every_record code_units twenty_five a_monday
           (sorted_on "id" "asc") 20 eq_refl).
Defined.

(** A limit of 500 is served as 100. *)
Lemma page_is_bounded_witness :
  1 ≤ 100 ≤ 100
  ∧ (length (r_records (leads code_units twenty_five a_monday
       (Query "" "" "" "" "" "" None (Num 1) (Num 500) "id" "asc"))) ≤ Z.to_nat 100)%nat.
Proof.
  exact (proj1 (proj2 (page_is_bounded code_units twenty_five a_monday
           (Query "" "" "" "" "" "" None (Num 1) (Num 500) "id" "asc"))) 100 eq_refl).
Defined.

End Pages.

(** ** Filters *)

Section Filters.

Lemma filter_twice {A} (f g : A → bool) (l : list A) :
  List.filter g (List.filter f l) = List.filter (λ x, f x && g x) l.
Proof.
  induction l as [|x l IH]; [done|]. simpl.
  destruct (f x); simpl; [|done]. destruct (g x); by rewrite IH.
Qed.

Lemma filter_gate {A} (P : Prop) `{Decision P} (f : A → bool) (l : list A) :
  (if decide P then l else List.filter f l)
  = List.filter (λ x, bool_decide P || f x) l.
Proof.
  destruct (decide P) as [HP|HP].
  - rewrite (List.filter_ext _ (λ _, true)).
    + induction l as [|x l IH]; [done|]. simpl. by rewrite <- IH.
    + intros x. by rewrite bool_decide_eq_true_2.
  - apply List.filter_ext. intros x. by rewrite bool_decide_eq_false_2.
Qed.

Lemma elem_of_take_drop {A} (x : A) (n m : nat) (l : list A) :
  x ∈ take n (drop m l) → x ∈ l.
Proof.
  intros H. rewrite <- (take_drop m l). apply elem_of_app. right.
  rewrite <- (take_drop n (drop m l)). apply elem_of_app. by left.
Qed.

Lemma apply_filters_matches (q : query) (all : list record) :
  apply_filters q all = List.filter (matches q) all.
Proof.
  unfold apply_filters. cbv zeta. rewrite !filter_gate.
  assert (Hmin : ∀ l : list record,
            match q_minDuration q with
            | None => l
            | Some NaN => List.filter (λ _, false) l
            | Some (Num md) =>
                List.filter (λ r, match probedDuration r with
                                  | Some d => bool_decide (md ≤ d)
                                  | None => false
                                  end) l
            end
            = List.filter (λ r, match q_minDuration q with
                                | None => true
                                | Some md => long_enough md r
                                end) l).
  { intros l. destruct (q_minDuration q) as [[|md]|]; try done.
    induction l as [|x l IH]; [done|]. simpl. by rewrite <- IH. }
  rewrite Hmin, !filter_twice. apply List.filter_ext. intros r.
  unfold matches, search_hit.
  by rewrite <- !andb_assoc, <- !orb_assoc.
Qed.

(** The filters of the view act as one conjunction: the matching records
    are those of the snapshot that pass every filter the query gives, in
    the order of the snapshot; and every record of a response is a record
    of the snapshot that passes them all. *)
Theorem filters_are_conjunctive (lc : string → string → Z) (all : list record)
    (clk : clock) (q : query) :
  apply_filters q all = List.filter (matches q) all
  ∧ (∀ r, r ∈ r_records (leads lc all clk q) → r ∈ all ∧ matches q r = true)
  ∧ (∀ r, r ∈ all → matches q r = true →
       r ∈ sort (compare_by lc (q_sort q) (q_dir q)) (apply_filters q all)).
Proof.
  split; [apply apply_filters_matches|]. split.
  - intros r Hr. simpl in Hr.
    assert (Hin : r ∈ sort (compare_by lc (q_sort q) (q_dir q)) (apply_filters q all)).
    { unfold page_slice in Hr.
      destruct (at_least_1 (q_page q)), (clamp_limit (q_limit q));
        try (by apply elem_of_nil in Hr).
      by eapply elem_of_take_drop. }
    rewrite sort_perm, apply_filters_matches in Hin.
    apply list_elem_of_In, filter_In in Hin as [Hin Hm].
    by apply list_elem_of_In in Hin.
  - intros r Hr Hm. rewrite sort_perm, apply_filters_matches.
    apply list_elem_of_In, filter_In. split; [by apply list_elem_of_In|done].
Qed.

End Filters.

(** ** Filter options *)

Section Options.

Lemma code_units_le (a b : string) :
  code_units a b ≤ 0 ↔ String.compare a b ≠ Gt.
Proof. unfold code_units. destruct (String.compare a b); split; (done || lia). Qed.

Lemma code_units_consistent (l : list string) : consistent code_units l.
Proof.
  split.
  - intros a b _ _. unfold code_units.
    rewrite (String.compare_antisym b a).
    destruct (String.compare a b); simpl; lia.
  - intros a b c _ _ _. rewrite !code_units_le. intros Hab Hbc.
    destruct (String.compare a b) eqn:Eab; [|clear Hab|done].
    + apply String.compare_eq_iff in Eab as ->. done.
    + destruct (String.compare b c) eqn:Ebc; [|clear Hbc|done].
      * apply String.compare_eq_iff in Ebc as <-. by rewrite Eab.
      * apply OrderedTypeEx.String_as_OT.cmp_lt in Eab, Ebc.
        pose proof (OrderedTypeEx.String_as_OT.lt_trans _ _ _ Eab Ebc) as Hac.
        apply OrderedTypeEx.String_as_OT.cmp_lt in Hac.
        unfold OrderedTypeEx.String_as_OT.cmp in Hac. by rewrite Hac.
Qed.

Lemma ordered_NoDup_ascending (l : list string) :
  ordered code_units l → NoDup l → ascending l.
Proof.
  unfold ordered, ascending. induction 1 as [|x l Hl IH Hx]; intros Hnd.
  - constructor.
  - apply NoDup_cons in Hnd as [Hx' Hnd]. constructor; [by apply IH|].
    apply Forall_forall. intros y Hy.
    rewrite Forall_forall in Hx. specialize (Hx y Hy).
    apply code_units_le in Hx.
    destruct (String.compare x y) eqn:E; try done.
    apply String.compare_eq_iff in E as ->. done.
Qed.

Lemma options_spec (l : list string) :
  ascending (options l) ∧ ∀ s, s ∈ options l ↔ s ∈ l ∧ s ≠ "".
Proof.
  unfold options. split.
  - apply ordered_NoDup_ascending.
    + apply sort_ordered, code_units_consistent.
    + rewrite sort_perm. apply NoDup_remove_dups.
  - intros s. rewrite sort_perm, elem_of_remove_dups.
    rewrite !list_elem_of_In, filter_In, bool_decide_eq_true. done.
Qed.

(** The filter options of a response: each list is in ascending code-unit
    order without repetition; the statuses and outcomes are exactly the
    non-empty ones that occur in the snapshot, the agents the names that
    occur other than the empty one and "Unknown".  They do not depend on
    the query. *)
Theorem filter_options_listed (lc : string → string → Z) (all : list record)
    (clk : clock) (q : query) :
  let f := r_filters (leads lc all clk q) in
  ascending (statuses f) ∧ ascending (outcomes f) ∧ ascending (agents f)
  ∧ (∀ s, s ∈ statuses f ↔ s ≠ "" ∧ ∃ r, r ∈ all ∧ status r = s)
  ∧ (∀ s, s ∈ outcomes f ↔ s ≠ "" ∧ ∃ r, r ∈ all ∧ callOutcome r = s)
  ∧ (∀ s, s ∈ agents f ↔ s ≠ "" ∧ s ≠ "Unknown" ∧ ∃ r, r ∈ all ∧ agentName r = s).
Proof.
  simpl.
  assert (Hmap : ∀ (g : record → string) s,
            s ∈ map g all ↔ ∃ r, r ∈ all ∧ g r = s).
  { intros g s. rewrite list_elem_of_In, in_map_iff.
    split; intros (r & H1 & H2); exists r.
    - by rewrite list_elem_of_In.
    - by rewrite <- list_elem_of_In. }
  split; [apply options_spec|]. split; [apply options_spec|]. split; [|split; [|split]].
  - apply ordered_NoDup_ascending.
    + apply sort_ordered, code_units_consistent.
    + rewrite sort_perm. apply NoDup_remove_dups.
  - intros s. rewrite (proj2 (options_spec _)), Hmap. tauto.
  - intros s. rewrite (proj2 (options_spec _)), Hmap. tauto.
  - intros s. rewrite sort_perm, elem_of_remove_dups.
    rewrite list_elem_of_In, filter_In, <- list_elem_of_In, Hmap.
    rewrite andb_true_iff, !bool_decide_eq_true. tauto.
Qed.

End Options.

(** ** The trend *)

Section Trend.

Lemma trends_init_lookup (days : list string) (d : string) :
  trends_init days !! d = if decide (d ∈ days) then Some (0%nat, 0%nat) else None.
Proof.
  unfold trends_init. induction days as [|x days IH] using rev_ind.
  - done.
  - rewrite foldl_snoc. destruct (decide (x = d)) as [->|Hne].
    + rewrite lookup_insert_eq. rewrite decide_True; [done|].
      apply elem_of_app. right. apply list_elem_of_here.
    + rewrite lookup_insert_ne by done. rewrite IH.
      destruct (decide (d ∈ days)) as [Hin|Hin].
      * rewrite decide_True; [done|]. apply elem_of_app. by left.
      * rewrite decide_False; [done|]. rewrite elem_of_app, list_elem_of_singleton.
        intros [?|?]; [done|congruence].
Qed.

Lemma trends_count_lookup (all : list record) (m : gmap string (nat * nat)) (d : string) :
  foldl trends_count m all !! d
  = (λ cb, ((cb.1 + calls_on d all)%nat, (cb.2 + booked_on d all)%nat)) <$> m !! d.
Proof.
  revert m; induction all as [|r all IH]; intros m.
  - unfold calls_on, booked_on, how_many. simpl.
    destruct (m !! d) as [[c b]|]; simpl; [|done].
    by rewrite !Nat.add_0_r.
  - simpl. rewrite IH. clear IH.
    unfold trends_count, calls_on, booked_on, how_many, called. simpl.
    destruct (decide (lastCallDate r = "")) as [He|He].
    + rewrite bool_decide_eq_false_2 by tauto. done.
    + rewrite (bool_decide_eq_true_2 (lastCallDate r ≠ "")) by done. simpl.
      destruct (m !! day_of r) as [[c b]|] eqn:Em.
      * destruct (decide (day_of r = d)) as [<-|Hne].
        -- rewrite lookup_insert_eq, Em. simpl.
           rewrite bool_decide_eq_true_2 by done. simpl.
           destruct (is_status "Booked" r); simpl; f_equal; f_equal; lia.
        -- rewrite lookup_insert_ne by done.
           rewrite bool_decide_eq_false_2 by done. done.
      * destruct (decide (day_of r = d)) as [<-|Hne].
        -- by rewrite Em.
        -- rewrite bool_decide_eq_false_2 by done. done.
Qed.

(** The trend of the stats block has one entry for each day the clock
    lists, in ascending order of the dates; the entry of a day counts the
    called records whose call date falls on that day, and the booked ones
    among them.  A call on any other day is in no entry. *)
Theorem trend_counts_the_week (all : list record) (clk : clock) :
  let st := computeStats all clk in
  ascending (trendDays st)
  ∧ (∀ d, d ∈ trendDays st ↔ d ∈ week clk)
  ∧ callsTrend st = map (λ d, calls_on d all) (trendDays st)
  ∧ bookedTrend st = map (λ d, booked_on d all) (trendDays st).
Proof.
  simpl.
  set (trends := foldl trends_count (trends_init (week clk)) all).
  assert (Hlook : ∀ d, trends !! d
            = if decide (d ∈ week clk)
              then Some (calls_on d all, booked_on d all) else None).
  { intros d. subst trends. rewrite trends_count_lookup, trends_init_lookup.
    by destruct (decide (d ∈ week clk)). }
  assert (Hkeys : ∀ d, d ∈ map fst (map_to_list trends) ↔ d ∈ week clk).
  { intros d. rewrite list_elem_of_In, in_map_iff. split.
    - intros ([d' v] & <- & Hin). simpl.
      apply list_elem_of_In, elem_of_map_to_list in Hin.
      rewrite Hlook in Hin. by destruct (decide (d' ∈ week clk)).
    - intros Hd. exists (d, (calls_on d all, booked_on d all)). split; [done|].
      apply list_elem_of_In, elem_of_map_to_list.
      rewrite Hlook. by rewrite decide_True. }
  assert (Hval : ∀ (g : nat * nat → nat) (h : string → nat),
            (∀ d, d ∈ week clk → g (calls_on d all, booked_on d all) = h d) →
            map (λ d, default 0%nat (g <$> trends !! d))
                (sort code_units (map fst (map_to_list trends)))
            = map h (sort code_units (map fst (map_to_list trends)))).
  { intros g h Hgh. apply map_ext_in. intros d Hd.
    apply list_elem_of_In in Hd. rewrite sort_perm, Hkeys in Hd.
    rewrite Hlook, decide_True by done. simpl. by apply Hgh. }
  split; [|split; [|split]].
  - apply ordered_NoDup_ascending.
    + apply sort_ordered, code_units_consistent.
    + rewrite sort_perm. apply (NoDup_fst_map_to_list trends).
  - intros d. by rewrite sort_perm.
  - by apply Hval.
  - by apply Hval.
Qed.

End Trend.

(** ** The duration probe, once more *)

Section ProbeBounds.

Lemma wav_seconds_bounds (len : Z) :
  44 < len →
  0 ≤ wav_seconds len
  ∧ 48000 * wav_seconds len - 24000 ≤ len - 44 < 48000 * wav_seconds len + 24000.
Proof.
  intros Hlen. unfold wav_seconds.
  pose proof (Z.div_mod (len - 44 + 24000) 48000 ltac:(lia)) as Hd.
  pose proof (Z.mod_pos_bound (len - 44 + 24000) 48000 ltac:(lia)) as Hm.
  assert (0 ≤ (len - 44 + 24000) / 48000) by (apply Z.div_pos; lia).
  lia.
Qed.

Lemma probe_resume_memo (url : string) (resp : head_response) (dc : gmap string Z) :
  0 ≤ (probeWavDuration_resume url resp dc).1
  ∧ (∀ u, u ≠ url → (probeWavDuration_resume url resp dc).2 !! u = dc !! u)
  ∧ ((probeWavDuration_resume url resp dc).2 !! url = dc !! url
     ∨ (probeWavDuration_resume url resp dc).2 !! url
       = Some (probeWavDuration_resume url resp dc).1).
Proof.
  unfold probeWavDuration_resume.
  destruct resp as [|[] cl]; simpl; try (split; [lia|]; split; [done|]; by left).
  case_bool_decide as Hle; simpl; [split; [lia|]; split; [done|]; by left|].
  assert (Hlen : 44 < default 0 cl) by lia.
  destruct (wav_seconds_bounds _ Hlen) as [H0 _].
  split; [done|]. split.
  - intros u Hu. by rewrite lookup_insert_ne.
  - right. apply lookup_insert_eq.
Qed.



End ProbeBounds.

(** ** The change detector, once more *)

Section ChangesShape.

Lemma changes_of_shape (m : gmap string record) (nr : record) :
  (length (changes_of m nr) ≤ 2)%nat
  ∧ ∀ l1 name l2, changes_of m nr = l1 ++ appointment_booked name :: l2 →
      l2 = [] ∧ ∃ oldStatus, l1 = [status_change name oldStatus "Booked"]
                             ∧ oldStatus ≠ "Booked".
Proof.
  unfold changes_of. destruct (m !! id nr) as [o|].
  - destruct (decide (status o ≠ status nr)) as [Hs|Hs].
    + destruct (decide (status nr = "Booked" ∧ status o ≠ "Booked")) as [[Hb Ho]|Hb].
      * split; [simpl; lia|]. intros l1 name l2 H.
        destruct l1 as [|e1 [|e2 l1]]; inversion H; subst; try (by destruct l1).
        split; [done|]. exists (status o). split; [by rewrite Hb|done].
      * split; [simpl; lia|]. intros l1 name l2 H.
        destruct l1 as [|e1 [|e2 l1]]; inversion H; by destruct l1.
    + destruct (decide (lastCallDate o ≠ lastCallDate nr)).
      * split; [simpl; lia|]. intros l1 name l2 H.
        destruct l1 as [|e1 [|e2 l1]]; inversion H; by destruct l1.
      * split; [simpl; lia|]. intros l1 name l2 H. by destruct l1.
  - split; [simpl; lia|]. intros l1 name l2 H.
    destruct l1 as [|e1 [|e2 l1]]; inversion H; by destruct l1.
Qed.

Lemma app_cons_split {A} (xs ys l1 l2 : list A) (x : A) :
  xs ++ ys = l1 ++ x :: l2 →
  (∃ k, xs = l1 ++ x :: k ∧ l2 = k ++ ys)
  ∨ (∃ k, l1 = xs ++ k ∧ ys = k ++ x :: l2).
Proof.
  revert l1; induction xs as [|a xs IH]; intros l1 H.
  - right. by exists l1.
  - destruct l1 as [|b l1]; simpl in H; injection H as -> H.
    + left. by exists xs.
    + destruct (IH l1 H) as [(k & -> & ->)|(k & -> & ->)].
      * left. by exists k.
      * right. by exists k.
Qed.

(** A diff reports at most two events for each record of the new snapshot,
    and an appointment never stands alone: it comes directly after the
    status change of the same lead to "Booked" from a status that was not
    "Booked".  Against an old snapshot without records every new record is
    reported as a new lead. *)
Theorem detectChanges_shape (oldRecs newRecs : list record) :
  (length (detectChanges oldRecs newRecs) ≤ 2 * length newRecs)%nat
  ∧ (∀ l1 name l2,
       detectChanges oldRecs newRecs = l1 ++ appointment_booked name :: l2 →
       ∃ l0 oldStatus,
         l1 = l0 ++ [status_change name oldStatus "Booked"] ∧ oldStatus ≠ "Booked")
  ∧ detectChanges [] newRecs = map (λ nr, new_lead (full_name nr)) newRecs.
Proof.
  unfold detectChanges. split; [|split].
  - induction newRecs as [|nr new IH]; simpl; [lia|].
    rewrite length_app.
    pose proof (proj1 (changes_of_shape (oldMap oldRecs) nr)). lia.
  - induction newRecs as [|nr new IH]; simpl; intros l1 name l2 H.
    + by destruct l1.
    + apply app_cons_split in H as [(k & Hc & ->)|(k & -> & Hr)].
      * apply (proj2 (changes_of_shape _ _)) in Hc as (-> & oldStatus & -> & Ho).
        exists [], oldStatus. done.
      * destruct (IH _ _ _ Hr) as (l0 & oldStatus & -> & Ho).
        exists (changes_of (oldMap oldRecs) nr ++ l0), oldStatus.
        by rewrite app_assoc.
  - induction newRecs as [|nr new IH]; simpl; [done|]. by rewrite IH.
Qed.

(** The refresh of the example: the lead booked, a second lead new. *)
Lemma detectChanges_shape_witness :
  ∃ l0 oldStatus,
    [status_change " " "New" "Booked"]
    = l0 ++ [status_change " " oldStatus "Booked"] ∧ oldStatus ≠ "Booked".
Proof.
  exact (proj1 (proj2 (detectChanges_shape [lead "1" "New"]
           [lead "1" "Booked"; lead "2" "New"]))
           [status_change " " "New" "Booked"] " " [new_lead " "] eq_refl).
Defined.

End ChangesShape.

(** ** What every state of the process satisfies *)

Section Invariants.

Lemma pending_of_calls (dc : gmap string Z) (rs : list record) (i : nat) (url : string) :
  pending_of (map (λ r, probeWavDuration_call (recordingUrl r) dc) rs) !! i
  = Some (Some url) → url ≠ "".
Proof.
  revert i; induction rs as [|r rs IH]; intros i H; [done|].
  destruct i as [|i]; [|by apply (IH i)].
  simpl in H. unfold probeWavDuration_call in H.
  destruct (decide (recordingUrl r = "")); [done|].
  destruct (dc !! recordingUrl r); [done|]. by simplify_eq.
Qed.

Lemma well_formed_commit t now allRecords (s : server) :
  well_formed s → well_formed (commit t now allRecords (map normalize allRecords) s).
Proof.
  intros (Hdc & Ht & _ & Hnd).
  destruct (commit_shape t now allRecords (map normalize allRecords) s)
    as (w & k & -> & Hk).
  split; [done|]. split; [|split; [|done]].
  - simpl. intros t' now' all' mapped' pending' H.
    apply list_lookup_insert_Some in H as [(_ & Heq & _)|(_ & H)].
    + destruct Hk; congruence.
    + by eapply Ht.
  - simpl. by eexists.
Qed.

Lemma well_formed_set_task t k (s : server) :
  well_formed s →
  (∀ now allRecords mapped pending, k = AwaitProbes now allRecords mapped pending →
     mapped = map normalize allRecords
     ∧ ∀ i url, pending !! i = Some (Some url) → url ≠ "") →
  well_formed (set_task t k s).
Proof.
  intros (Hdc & Ht & Hc & Hnd) Hk. split; [done|]. split; [|done].
  simpl. intros t' now' all' mapped' pending' H.
  apply list_lookup_insert_Some in H as [(_ & Heq & _)|(_ & H)].
  - by eapply Hk.
  - by eapply Ht.
Qed.

Lemma well_formed_step (s : server) (e : event) :
  well_formed s → well_formed (step s e).
Proof.
  intros Hwf. destruct e as [now|t resp|t i resp| |c|c|c o]; simpl.
  - destruct Hwf as (Hdc & Ht & Hc & Hnd).
    unfold fetchAllRecords_call. destruct (fresh _ _);
      (split; [done|]; split; [|done]); simpl;
      intros t' now' all' mapped' pending' H;
      (apply lookup_snoc_Some in H as [[_ H]|[_ H]]; [by eapply Ht|discriminate H]).
  - destruct (tasks s !! t) as [[now acc| | |]|] eqn:E; try done.
    unfold fetchAllRecords_page. destruct resp as [|st body|recs offset].
    + by apply well_formed_set_task.
    + by apply well_formed_set_task.
    + case_decide.
      * unfold after_pages. cbv zeta. destruct (all_in _).
        -- by apply well_formed_commit.
        -- apply (well_formed_set_task t _ (send _ s)); [done|].
           intros ? ? ? ? [= <- <- <- <-]. split; [done|].
           intros i url. apply pending_of_calls.
      * by apply (well_formed_set_task t _ (send _ s)).
  - destruct (tasks s !! t) as [[|now acc mapped pending| |]|] eqn:E; try done.
    unfold fetchAllRecords_head.
    destruct (pending !! i) as [[url|]|] eqn:Ep; try done.
    destruct Hwf as (Hdc & Ht & Hc & Hnd).
    destruct (Ht _ _ _ _ _ E) as [-> Hp].
    pose proof (probe_resume_memo url resp (durationCache s)) as (Hv & Ho & Hu).
    destruct (probeWavDuration_resume url resp (durationCache s)) as [v dc].
    simpl in Hv, Ho, Hu.
    assert (Hwf1 : well_formed (with_durationCache dc s)).
    { split; [|done]. simpl. intros u d Hd.
      destruct (decide (u = url)) as [->|Hne].
      - destruct Hu as [Hu|Hu]; rewrite Hu in Hd.
        + by eapply Hdc.
        + simplify_eq. split; [by eapply Hp|done].
      - rewrite Ho in Hd by done. by eapply Hdc. }
    destruct (all_in _).
    + by apply well_formed_commit.
    + apply well_formed_set_task; [done|].
      intros ? ? ? ? [= <- <- <- <-]. split; [done|].
      intros j u Hj. apply list_lookup_insert_Some in Hj as [(_ & ? & _)|(_ & Hj)];
        [done|by eapply Hp].
  - destruct Hwf as (Hdc & Ht & Hc & Hnd). done.
  - destruct Hwf as (Hdc & Ht & Hc & Hnd).
    assert (Hadd : ∀ s1, sseClients s1 = sseClients s → durationCache s1 = durationCache s →
              tasks s1 = tasks s → cache s1 = cache s →
              well_formed (if decide (c ∈ sseClients s1) then s1
                           else with_sseClients (sseClients s1 ++ [c]) s1)).
    { intros s1 H1 H2 H3 H4. case_decide as Hin.
      - unfold well_formed. by rewrite H1, H2, H3, H4.
      - unfold well_formed. simpl. rewrite H2, H3, H4.
        split; [done|]. split; [done|]. split; [done|].
        apply NoDup_app. rewrite H1 in *. split; [done|].
        split; [|apply NoDup_singleton].
        intros x Hx Hx'. apply list_elem_of_singleton in Hx' as ->. done. }
    destruct (socket_of (sockets s) c).
    + by apply (Hadd (with_wire (wire s ++ [(c, connected)]) s)).
    + by apply (Hadd s).
    + done.
  - destruct Hwf as (Hdc & Ht & Hc & Hnd).
    split; [done|]. split; [done|]. split; [done|]. simpl.
    by apply NoDup_ListNoDup, List.NoDup_filter, NoDup_ListNoDup.
  - destruct Hwf as (Hdc & Ht & Hc & Hnd). done.
Qed.

Lemma well_formed_reachable (s : server) : reachable s → well_formed s.
Proof.
  intros [events ->]. induction events as [|e events IH] using rev_ind.
  - split; [done|]. split; [done|]. split; [done|]. constructor.
  - rewrite run_app. by apply (well_formed_step _ e).
Qed.

End Invariants.

Section Reachable.

Lemma or_str_unknown (a b : string) : or_str a (or_str b "Unknown") ≠ "".
Proof.
  unfold or_str. destruct (decide (a = "")); [|done].
  by destruct (decide (b = "")).
Qed.

Lemma attach_rows (dc : gmap string Z) (rows : list raw_record) :
  Forall2 (λ r row,
             id r = raw_id row ∧ fields r = raw_fields row
             ∧ is_Some (probedDuration r) ∧ agentName r ≠ "")
          (attach dc (map normalize rows)) rows.
Proof.
  unfold attach. induction rows as [|row rows IH]; simpl; constructor; [|done].
  simpl. repeat split; [by eexists|apply or_str_unknown].
Qed.

(** In every state of the process the duration cache has no entry for the
    empty url and holds no negative duration. *)
Theorem duration_cache_entries (s : server) (url : string) (d : Z) :
  reachable s → durationCache s !! url = Some d → url ≠ "" ∧ 0 ≤ d.
Proof.
  intros Hr. destruct (well_formed_reachable s Hr) as (Hdc & _). apply Hdc.
Qed.

(** In every state of the process the cache holds no snapshot and no raw
    payload, or both; then the records are the rows of the payload, one for
    one in their order: each record has the id and the field map of its
    row, a probed duration, and an agent name that is not empty. *)
Theorem cached_snapshot_matches_rows (s : server) :
  reachable s →
  (records (cache s) = None ↔ raw (cache s) = None)
  ∧ ∀ recs rows, records (cache s) = Some recs → raw (cache s) = Some rows →
      Forall2 (λ r row,
                 id r = raw_id row ∧ fields r = raw_fields row
                 ∧ is_Some (probedDuration r) ∧ agentName r ≠ "")
              recs rows.
Proof.
  intros Hr. destruct (well_formed_reachable s Hr) as (_ & _ & Hc & _).
  destruct (records (cache s)) as [recs|], (raw (cache s)) as [rows|]; try done.
  split; [done|]. intros ? ? [= <-] [= <-].
  destruct Hc as [dc ->]. apply attach_rows.
Qed.

Lemma frames_once sockets (e : sse_event) (cs : list nat) (c : nat) :
  NoDup cs →
  frames_of c (frames sockets e cs)
  = if decide (c ∈ cs ∧ socket_of sockets c = Written) then [e] else [].
Proof.
  unfold frames_of, frames, accepts.
  induction cs as [|x cs IH]; intros Hnd.
  - destruct (decide _) as [[H _]|]; [by apply elem_of_nil in H|done].
  - apply NoDup_cons in Hnd as [Hx Hnd]. specialize (IH Hnd). cbn [List.filter map].
    destruct (bool_decide_reflect (socket_of sockets x = Written)) as [Hw|Hw]; simpl;
      [destruct (bool_decide_reflect (x = c)) as [Hxc|Hxc]; simpl|];
      rewrite IH;
      destruct (decide (c ∈ cs ∧ socket_of sockets c = Written)) as [[H1 H2]|H1];
      destruct (decide (c ∈ x :: cs ∧ socket_of sockets c = Written)) as [[H3 H4]|H3];
      try done; exfalso; subst; rewrite ?elem_of_cons in *; naive_solver.
Qed.

(** In every state of the process no client is subscribed twice, so one
    event is written at most once to a client. *)
Theorem subscribers_listed_once (s : server) :
  reachable s →
  NoDup (sseClients s)
  ∧ ∀ e c, (length (frames_of c (frames (sockets s) e (sseClients s))) ≤ 1)%nat.
Proof.
  intros Hr. destruct (well_formed_reachable s Hr) as (_ & _ & _ & Hnd).
  split; [done|]. intros e c. rewrite frames_once by done.
  case_decide; simpl; lia.
Qed.

(** The recording of 96044 bytes is memoized as two seconds. *)
Lemma duration_cache_entries_witness : "https://r/1.wav" ≠ "" ∧ 0 ≤ 2.
Proof.
  apply (duration_cache_entries (run boot probed_once) "https://r/1.wav" 2).
  - by exists probed_once.
  - vm_compute. reflexivity.
Defined.

(** The state after the first fetch of one lead. *)
Lemma cached_snapshot_matches_rows_witness :
  records (cache warmed_up) = None ↔ raw (cache warmed_up) = None.
Proof.
  apply (proj1 (cached_snapshot_matches_rows warmed_up
                  (ex_intro _ [Call 100000; PageArrives 0 (PageOk [row "rec1" "New"] "")]
                            eq_refl))).
Defined.

(** Two clients and a first fetch. *)
Lemma subscribers_listed_once_witness : NoDup (sseClients (run boot two_listeners)).
Proof.
  apply (proj1 (subscribers_listed_once (run boot two_listeners)
                  (ex_intro _ two_listeners eq_refl))).
Defined.

End Reachable.

(** ** What a refresh writes, and to whom *)

Section Wire.

Lemma frames_of_app (c : nat) (w1 w2 : wire_t) :
  frames_of c (w1 ++ w2) = frames_of c w1 ++ frames_of c w2.
Proof. unfold frames_of. by rewrite List.filter_app, map_app. Qed.

Lemma broadcast_other sockets (e : sse_event) (cs : list nat) (w : wire_t) (c : nat) :
  c ∉ cs → frames_of c (broadcast sockets e cs w).1 = frames_of c w.
Proof.
  revert w; induction cs as [|x cs IH]; intros w Hc; [done|].
  apply not_elem_of_cons in Hc as [Hne Hc]. simpl.
  destruct (socket_of sockets x); [|by apply IH|done].
  rewrite IH by done. rewrite frames_of_app. unfold frames_of at 2. simpl.
  rewrite bool_decide_eq_false_2 by done. simpl. by rewrite app_nil_r.
Qed.

Lemma broadcast_all_other sockets (events : list sse_event) (cs : list nat)
    (w : wire_t) (c : nat) :
  c ∉ cs → frames_of c (broadcast_all sockets events cs w).1 = frames_of c w.
Proof.
  intros Hc. revert w; induction events as [|e events IH]; intros w; [done|].
  simpl. pose proof (broadcast_other sockets e cs w c Hc) as Hb.
  destruct (broadcast sockets e cs w) as [w' []]; simpl in *.
  - by rewrite IH.
  - done.
Qed.

Lemma broadcast_all_quiet_wire sockets (events : list sse_event) (cs : list nat)
    (w : wire_t) :
  Forall (λ c, raises sockets c = false) cs →
  broadcast_all sockets events cs w
  = (w ++ flat_map (λ e, frames sockets e cs) events, Normal).
Proof.
  intros Hq. revert w; induction events as [|e events IH]; intros w.
  - simpl. by rewrite app_nil_r.
  - simpl. rewrite broadcast_quiet by done. rewrite IH. by rewrite <- app_assoc.
Qed.

Lemma commit_wire t now allRecords mapped (s : server) :
  wire (commit t now allRecords mapped s)
  = match records (cache s) with
    | Some p =>
        (broadcast_all (sockets s) (detectChanges p (attach (durationCache s) mapped))
                       (sseClients s) (wire s)).1
    | None => wire s
    end.
Proof.
  unfold commit. destruct (records (cache s)); [|done]. simpl.
  by destruct (broadcast_all _ _ _ _) as [w []].
Qed.

(** The end of a fetch (lines 113-122).  The first snapshot of the process
    is cached without a word to the subscribers.  A later one, no write
    raising, is reported to every subscriber whose connection accepts
    writes as the events of the diff against the snapshot it replaces, in
    the order of the diff, and to nobody else. *)
Theorem refresh_reports_the_diff t now allRecords mapped (s : server) :
  (records (cache s) = None → wire (commit t now allRecords mapped s) = wire s)
  ∧ (∀ p c,
       records (cache s) = Some p →
       NoDup (sseClients s) →
       Forall (λ c, raises (sockets s) c = false) (sseClients s) →
       frames_of c (wire (commit t now allRecords mapped s))
       = frames_of c (wire s)
         ++ if decide (c ∈ sseClients s ∧ socket_of (sockets s) c = Written)
            then detectChanges p (attach (durationCache s) mapped)
            else []).
Proof.
  rewrite commit_wire. split.
  - by intros ->.
  - intros p c -> Hnd Hq. rewrite broadcast_all_quiet_wire by done. simpl.
    rewrite frames_of_app. f_equal.
    generalize (detectChanges p (attach (durationCache s) mapped)) as events.
    induction events as [|e events IH]; simpl.
    + by destruct (decide _).
    + rewrite frames_of_app, IH, frames_once by done.
      by destruct (decide _).
Qed.

Lemma step_closed (s : server) (e : event) (c : nat) :
  c ∉ sseClients s → e ≠ Subscribe c →
  (c ∉ sseClients (step s e))
  ∧ frames_of c (wire (step s e)) = frames_of c (wire s).
Proof.
  intros Hc He.
  assert (Hcommit : ∀ t now all mapped s1,
            sseClients s1 = sseClients s → wire s1 = wire s →
            (c ∉ sseClients (commit t now all mapped s1))
            ∧ frames_of c (wire (commit t now all mapped s1)) = frames_of c (wire s)).
  { intros t now all mapped s1 H1 H2. rewrite commit_sseClients, commit_wire, H1.
    split; [done|]. destruct (records (cache s1)); [|by rewrite H2].
    rewrite broadcast_all_other; by rewrite ?H1, ?H2. }
  destruct e as [now|t resp|t i resp| |c'|c'|c' o]; simpl.
  - unfold fetchAllRecords_call. by destruct (fresh _ _).
  - destruct (tasks s !! t) as [[now acc| | |]|]; try done.
    unfold fetchAllRecords_page. destruct resp as [|st body|recs offset]; try done.
    case_decide; [|done]. unfold after_pages. cbv zeta.
    destruct (all_in _); [by apply Hcommit|done].
  - destruct (tasks s !! t) as [[|now acc mapped pending| |]|]; try done.
    unfold fetchAllRecords_head. destruct (pending !! i) as [[url|]|]; try done.
    destruct (probeWavDuration_resume _ _ _) as [v dc].
    destruct (all_in _); [by apply Hcommit|done].
  - done.
  - assert (Hne : c' ≠ c) by congruence.
    assert (Hadd : ∀ s1, sseClients s1 = sseClients s →
              frames_of c (wire s1) = frames_of c (wire s) →
              (c ∉ sseClients (if decide (c' ∈ sseClients s1) then s1
                               else with_sseClients (sseClients s1 ++ [c']) s1))
              ∧ frames_of c (wire (if decide (c' ∈ sseClients s1) then s1
                                   else with_sseClients (sseClients s1 ++ [c']) s1))
                = frames_of c (wire s)).
    { intros s1 H1 H2. case_decide; simpl; rewrite ?H1; (split; [|done]); [done|].
      rewrite elem_of_app, list_elem_of_singleton. intros [?|?]; [done|congruence]. }
    destruct (socket_of (sockets s) c').
    + apply (Hadd (with_wire (wire s ++ [(c', connected)]) s)); [done|]. simpl.
      rewrite frames_of_app. unfold frames_of at 2. simpl.
      rewrite bool_decide_eq_false_2 by done. simpl. apply app_nil_r.
    + by apply (Hadd s).
    + done.
  - split; [|done]. simpl. intros H.
    apply list_elem_of_In, filter_In in H as [H _]. by apply list_elem_of_In in H.
  - done.
Qed.

(** Once the connection of a client has closed, the client is out of the
    subscriber set, and whatever happens afterwards, short of the client
    subscribing again, nothing more is written to it. *)
Theorem closed_client_gets_nothing :
  (∀ s c, c ∉ sseClients (step s (Close c)))
  ∧ (∀ events s c,
       c ∉ sseClients s →
       Forall (λ e, e ≠ Subscribe c) events →
       (c ∉ sseClients (run s events))
       ∧ frames_of c (wire (run s events)) = frames_of c (wire s)).
Proof.
  split.
  - intros s c H. simpl in H.
    apply list_elem_of_In, filter_In in H as [_ H].
    by apply bool_decide_eq_true in H.
  - induction events as [|e events IH]; intros s c Hc He; [done|].
    apply Forall_cons in He as [He Hes]. rewrite run_cons.
    destruct (step_closed s e c Hc He) as [Hc' Hw'].
    destruct (IH (step s e) c Hc' Hes) as [Hc'' Hw''].
    split; [done|congruence].
Qed.

(** Two clients listen when the poll finds the lead booked: the first is
    sent the change of status and the booking. *)
Lemma refresh_reports_the_diff_witness :
  frames_of 0 (wire (commit 1 130000 [row "rec1" "Booked"]
                       [normalize (row "rec1" "Booked")]
                       (run boot two_listeners)))
  = frames_of 0 (wire (run boot two_listeners))
    ++ detectChanges [fetched (row "rec1" "New")] [fetched (row "rec1" "Booked")].
Proof.
  refine (eq_trans (proj2 (refresh_reports_the_diff 1 130000 [row "rec1" "Booked"]
                     [normalize (row "rec1" "Booked")] (run boot two_listeners))
                     [fetched (row "rec1" "New")] 0%nat _ _ _) _).
  - vm_compute. reflexivity.
  - apply (bool_decide_unpack _). vm_compute. exact I.
  - apply (bool_decide_unpack _). vm_compute. exact I.
  - vm_compute. reflexivity.
Defined.

(** The client has hung up; then the first snapshot is fetched. *)
Lemma closed_client_gets_nothing_witness :
  frames_of 0 (wire (run hung_up
                 [Call 100000; PageArrives 0 (PageOk [row "rec1" "New"] "")]))
  = frames_of 0 (wire hung_up).
Proof.
  refine (proj2 (proj2 closed_client_gets_nothing
            [Call 100000; PageArrives 0 (PageOk [row "rec1" "New"] "")] hung_up 0%nat _ _)).
  - apply (bool_decide_unpack _). vm_compute. exact I.
  - repeat constructor; discriminate.
Defined.

End Wire.

(** ** The probes of a fetch *)

Section Probes.





End Probes.

(** ** What the process keeps *)

Section Keeps.

Lemma step_keeps (s : server) (e : event) :
  (∀ url, is_Some (durationCache s !! url) → is_Some (durationCache (step s e) !! url))
  ∧ (is_Some (records (cache s)) → is_Some (records (cache (step s e)))).
Proof.
  assert (Hcommit : ∀ t now all mapped s1,
            (∀ url, is_Some (durationCache s !! url) → is_Some (durationCache s1 !! url)) →
            (∀ url, is_Some (durationCache s !! url)
                    → is_Some (durationCache (commit t now all mapped s1) !! url))
            ∧ (is_Some (records (cache s))
               → is_Some (records (cache (commit t now all mapped s1))))).
  { intros t now all mapped s1 H.
    destruct (commit_shape t now all mapped s1) as (w & k & -> & _). simpl.
    split; [done|]. by eexists. }
  destruct e as [now|t resp|t i resp| |c|c|c o]; simpl.
  - unfold fetchAllRecords_call. by destruct (fresh _ _).
  - destruct (tasks s !! t) as [[now acc| | |]|]; try done.
    unfold fetchAllRecords_page. destruct resp as [|st body|recs offset]; try done.
    case_decide; [|done]. unfold after_pages. cbv zeta.
    destruct (all_in _); [by apply Hcommit|done].
  - destruct (tasks s !! t) as [[|now acc mapped pending| |]|]; try done.
    unfold fetchAllRecords_head. destruct (pending !! i) as [[url|]|]; try done.
    pose proof (probe_resume_memo url resp (durationCache s)) as (_ & Ho & Hu).
    destruct (probeWavDuration_resume url resp (durationCache s)) as [v dc].
    simpl in Ho, Hu.
    assert (Hdc : ∀ u, is_Some (durationCache s !! u) → is_Some (dc !! u)).
    { intros u Hsome. destruct (decide (u = url)) as [->|Hne].
      - destruct Hu as [-> | ->]; [done|by eexists].
      - by rewrite Ho. }
    destruct (all_in _); [by apply Hcommit|done].
  - done.
  - destruct (socket_of (sockets s) c); try done; by case_decide.
  - done.
  - done.
Qed.

(** Nothing is ever evicted: a url that is memoized stays memoized, and a
    process that has cached a snapshot never goes back to having none,
    whatever happens -- failed fetches and invalidations included. *)
Theorem memo_and_snapshot_persist (events : list event) (s : server) :
  (∀ url, is_Some (durationCache s !! url)
          → is_Some (durationCache (run s events) !! url))
  ∧ (is_Some (records (cache s)) → is_Some (records (cache (run s events)))).
Proof.
  revert s; induction events as [|e events IH]; intros s; [done|].
  rewrite run_cons. destruct (step_keeps s e) as [H1 H2].
  destruct (IH (step s e)) as [H3 H4]. split; auto.
Qed.

(** A snapshot is cached, the table is then unreachable. *)
Lemma memo_and_snapshot_persist_witness :
  is_Some (records (cache (run warmed_up
             [Invalidate; Call 130000; PageArrives 1 PageFailed]))).
Proof.
  refine (proj2 (memo_and_snapshot_persist
            [Invalidate; Call 130000; PageArrives 1 PageFailed] warmed_up) _).
  by eexists.
Defined.

End Keeps.

(** ** The mutation handlers *)

Section Mutations.

(** The three write handlers touch the cache exactly when the table has
    answered ok, and then only its time stamp: the snapshot and its raw
    payload stay, and the next read, at any time from 20000 on, opens a
    fetch however young the snapshot was.  The answer is then 200, except
    for an update whose response body does not read as JSON: it is
    answered 500 although the time stamp is already reset.  When the table
    answers not ok the handler passes the status and the text on, when the
    request fails it answers 500; in both cases the state is as it was.
    An update without fields is answered 400 and nothing is sent to the
    table. *)
Theorem writes_invalidate_on_success (s : server) (r : write_reply) :
  Forall (λ out : http_reply * server,
            match r with
            | WriteAnswer true _ _ _ => out.2 = invalidate s
            | WriteAnswer false status (Read _) _ => out.2 = s ∧ code out.1 = status
            | WriteAnswer false _ (ReadFails _) _ => out.2 = s ∧ code out.1 = 500
            | WriteFailed _ => out.2 = s ∧ code out.1 = 500
            end)
         [patch_lead_reply r s; delete_lead_reply r s; delete_recording_reply r s]
  ∧ (∀ status text json, r = WriteAnswer true status text json →
       code (delete_lead_reply r s).1 = 200
       ∧ code (delete_recording_reply r s).1 = 200
       ∧ code (patch_lead_reply r s).1
         = match json with Read _ => 200 | ReadFails _ => 500 end)
  ∧ records (cache (invalidate s)) = records (cache s)
  ∧ raw (cache (invalidate s)) = raw (cache s)
  ∧ (∀ now, CACHE_TTL ≤ now →
       fetches (step (invalidate s) (Call now)) = S (fetches s)
       ∧ tasks (step (invalidate s) (Call now)) = tasks s ++ [AwaitPage now []])
  ∧ (∀ i, patch_lead_call i None = Answered (Json 400 (Failure "Missing fields" None))).
Proof.
  split; [|split; [|split; [done|split; [done|split; [|done]]]]].
  - destruct r as [m|[] st [m|t] [m'|j]]; repeat constructor.
  - intros status text json ->. by destruct json.
  - intros now Hnow. rewrite call_refetches.
    + rewrite fetches_send. unfold fetches. simpl. split; [lia|done].
    + unfold invalidate, fresh. simpl. destruct (records (cache s)); [|done].
      rewrite bool_decide_eq_false_2; [done|]. unfold CACHE_TTL in *. lia.
Qed.

(** A lead is updated two seconds after the snapshot was taken. *)
Lemma writes_invalidate_on_success_witness :
  fetches (step (invalidate warmed_up) (Call 102000)) = S (fetches warmed_up).
Proof.
  refine (proj1 (proj1 (proj2 (proj2 (proj2 (proj2
            (writes_invalidate_on_success warmed_up
               (WriteAnswer true 200 (Read "{}") (Read "{}")))))))
            102000 _)).
  unfold CACHE_TTL. lia.
Defined.

End Mutations.

(** ** Analytics: counts *)

Section Counts.

Local Ltac listed := apply (bool_decide_unpack _); vm_compute; exact I.

Lemma tally_step_other (m : gmap string tallied) (k k' : string) :
  k' ≠ k → tally_step m k' !! k = m !! k.
Proof.
  intros Hne. unfold tally_step.
  destruct (m !! k') as [[n|p n]|]; repeat case_decide;
    by rewrite ?lookup_insert_ne.
Qed.

Lemma tally_step_same (m : gmap string tallied) (k : string) (n : nat) :
  m !! k = tallied_of k n →
  (k = "__proto__" → m !! k = None) →
  tally_step m k !! k = tallied_of k (S n).
Proof.
  unfold tally_step, tallied_of. intros Hm Hp.
  destruct (decide (S n = 0%nat)) as [?|_]; [lia|].
  destruct (decide (k = "__proto__")) as [Hk|Hk].
  - rewrite (Hp Hk). by rewrite Hp.
  - destruct (decide (n = 0%nat)) as [->|Hn]; rewrite Hm.
    + destruct (decide (k ∈ inherited)); by rewrite lookup_insert_eq.
    + destruct (decide (k ∈ inherited)); by rewrite lookup_insert_eq.
Qed.

Lemma tally_lookup (key : record → string) (all : list record) (k : string) :
  tally key all !! k = tallied_of k (how_many (λ r, bool_decide (key r = k)) all).
Proof.
  unfold tally. induction all as [|r all IH] using rev_ind; [done|].
  rewrite foldl_snoc. unfold how_many in *. rewrite List.filter_app, length_app. simpl.
  set (m := foldl _ ∅ all) in *.
  destruct (decide (key r = k)) as [Hk|Hk].
  - rewrite Hk, bool_decide_eq_true_2 by done. simpl.
    rewrite Nat.add_1_r. apply tally_step_same; [done|].
    intros ->. rewrite IH. unfold tallied_of. by repeat case_decide.
  - rewrite tally_step_other, IH, bool_decide_eq_false_2 by done. simpl.
    by rewrite Nat.add_0_r.
Qed.

Lemma how_many_found (p : record → bool) (all : list record) :
  how_many p all ≠ 0%nat ↔ ∃ r, r ∈ all ∧ p r = true.
Proof.
  unfold how_many. split.
  - intros Hn. destruct (List.filter p all) as [|r l] eqn:E; [done|].
    assert (Hr : In r (List.filter p all)) by (rewrite E; by left).
    apply filter_In in Hr as [Hin Hp]. exists r. split; [by apply list_elem_of_In|done].
  - intros (r & Hin & Hp).
    assert (Hr : In r (List.filter p all)).
    { apply filter_In. split; [by apply list_elem_of_In|done]. }
    by destruct (List.filter p all).
Qed.

(** Under a key that no object inherits, the histograms of outcomes and of
    statuses hold the number of records with that outcome or status, a
    record without one being counted under "No Outcome" or "Unknown"
    together with the records that carry that very word; the key is
    present exactly when some record counts for it, and the empty key
    never is. *)
Theorem histograms_count_records (all : list record) (k : string) :
  k ∉ inherited →
  count_at (outcomeCounts all) k
  = how_many (λ r, bool_decide (or_str (callOutcome r) "No Outcome" = k)) all
  ∧ count_at (statusCounts all) k
    = how_many (λ r, bool_decide (or_str (status r) "Unknown" = k)) all
  ∧ (is_Some (outcomeCounts all !! k)
     ↔ ∃ r, r ∈ all ∧ or_str (callOutcome r) "No Outcome" = k)
  ∧ (is_Some (statusCounts all !! k)
     ↔ ∃ r, r ∈ all ∧ or_str (status r) "Unknown" = k)
  ∧ outcomeCounts all !! "" = None
  ∧ statusCounts all !! "" = None.
Proof.
  intros Hk.
  assert (Hp : k ≠ "__proto__").
  { intros ->. apply Hk. listed. }
  assert (Hdef : ∀ key, count_at (tally key all) k
                        = how_many (λ r, bool_decide (key r = k)) all).
  { intros key. unfold count_at. rewrite tally_lookup. unfold tallied_of.
    by repeat case_decide. }
  assert (Hsome : ∀ key, is_Some (tally key all !! k) ↔ ∃ r, r ∈ all ∧ key r = k).
  { intros key. rewrite tally_lookup.
    pose proof (how_many_found (λ r, bool_decide (key r = k)) all) as Hpos.
    unfold tallied_of. split.
    - intros Hs. destruct (decide (how_many _ all = 0%nat)) as [|Hn];
        [by destruct Hs|].
      apply Hpos in Hn as (r & Hin & Hr). exists r.
      split; [done|by apply bool_decide_eq_true in Hr].
    - intros (r & Hin & Hr). rewrite decide_False.
      + by repeat case_decide.
      + apply Hpos. exists r. split; [done|by apply bool_decide_eq_true]. }
  assert (Hnone : ∀ (f : record → string) w, w ≠ "" →
            tally (λ r, or_str (f r) w) all !! "" = None).
  { intros f w Hw. rewrite tally_lookup. unfold tallied_of.
    rewrite decide_True; [done|]. unfold how_many.
    assert (List.filter (λ r, bool_decide (or_str (f r) w = "")) all = []) as ->; [|done].
    clear -Hw. induction all as [|r all IH]; [done|]. simpl.
    rewrite bool_decide_eq_false_2; [done|]. unfold or_str. by case_decide. }
  split; [apply Hdef|]. split; [apply Hdef|]. split; [apply Hsome|].
  split; [apply Hsome|]. split; by apply Hnone.
Qed.

(** Two booked leads and one without an outcome. *)
Lemma histograms_count_records_witness :
  count_at (outcomeCounts
    [fetched (row "rec1" "Booked"); fetched (row "rec2" "Booked");
     fetched (row "rec3" "New")]) "No Outcome"
  = 3%nat.
Proof.
  refine (eq_trans (proj1 (histograms_count_records
    [fetched (row "rec1" "Booked"); fetched (row "rec2" "Booked");
     fetched (row "rec3" "New")] "No Outcome" _)) _).
  - listed.
  - reflexivity.
Defined.

(** Under a key that every object inherits the histograms never hold a
    count: the inherited value is truthy, so the first record pastes a 1
    to its text instead of starting at 1, and [__proto__] is never
    listed at all. *)
Theorem inherited_keys_hold_no_count (all : list record) (k : string) :
  k ∈ inherited →
  count_at (outcomeCounts all) k = 0%nat
  ∧ count_at (statusCounts all) k = 0%nat
  ∧ outcomeCounts all !! "__proto__" = None
  ∧ (k ≠ "__proto__" →
     (∃ r, r ∈ all ∧ callOutcome r = k) →
     outcomeCounts all !! k
     = Some (Pasted k (how_many (λ r, bool_decide (callOutcome r = k)) all))).
Proof.
  intros Hk.
  assert (Hne : k ≠ "").
  { intros ->. revert Hk. listed. }
  assert (Hdef : ∀ key, count_at (tally key all) k = 0%nat).
  { intros key. unfold count_at. rewrite tally_lookup. unfold tallied_of.
    by repeat case_decide. }
  split; [apply Hdef|]. split; [apply Hdef|]. split.
  - unfold outcomeCounts. rewrite tally_lookup. unfold tallied_of.
    by repeat case_decide.
  - intros Hp (r & Hin & Hr). unfold outcomeCounts. rewrite tally_lookup.
    assert (Hext : how_many (λ r, bool_decide (or_str (callOutcome r) "No Outcome" = k)) all
                   = how_many (λ r, bool_decide (callOutcome r = k)) all).
    { unfold how_many. f_equal. apply List.filter_ext. intros x. unfold or_str.
      case_decide as He; [|done]. rewrite He.
      rewrite !bool_decide_eq_false_2; [done|congruence|].
      intros <-. revert Hk. listed. }
    rewrite Hext. unfold tallied_of.
    rewrite decide_False.
    + by rewrite decide_False, decide_True.
    + apply how_many_found. exists r. split; [done|by apply bool_decide_eq_true].
Qed.

(** Two leads whose outcome reads "constructor". *)
Lemma inherited_keys_hold_no_count_witness :
  count_at (outcomeCounts
    [fetched (RawRecord "rec1" {["Call Outcome" := VStr "constructor"]});
     fetched (RawRecord "rec2" {["Call Outcome" := VStr "constructor"]})])
    "constructor" = 0%nat.
Proof.
  refine (proj1 (inherited_keys_hold_no_count _ "constructor" _)).
  listed.
Defined.

(** The daily series of the analytics has an entry for each day the clock
    lists and no other; the entry of a day counts the called records whose
    call date falls on that day and, not above that count, the booked ones
    among them. *)
Theorem daily_counts_the_days (days : list string) (all : list record) (d : string) :
  daily days all !! d
  = (if decide (d ∈ days) then Some (calls_on d all, booked_on d all) else None)
  ∧ (booked_on d all ≤ calls_on d all)%nat.
Proof.
  split.
  - unfold daily. rewrite trends_count_lookup, trends_init_lookup.
    by destruct (decide (d ∈ days)).
  - unfold booked_on, calls_on, how_many.
    induction all as [|r all IH]; simpl; [lia|].
    destruct (called r && bool_decide (day_of r = d)); simpl; [|done].
    destruct (is_status "Booked" r); simpl; lia.
Qed.

Lemma bestHour_upto (hourly : list nat) (n : nat) :
  (best_upto hourly n ≤ n)%nat
  ∧ (∀ i, i ≤ n → at_hour hourly i ≤ at_hour hourly (best_upto hourly n))%nat
  ∧ (∀ i, i < best_upto hourly n
          → at_hour hourly i < at_hour hourly (best_upto hourly n))%nat.
Proof.
  induction n as [|n (Hb & Hmax & Hfirst)].
  - unfold best_upto. simpl. split; [lia|]. split; [|lia].
    intros i Hi. by replace i with 0%nat by lia.
  - unfold best_upto in *. rewrite seq_S, foldl_snoc.
    set (best := foldl _ 0%nat (seq 1 n)) in *.
    replace (1 + n)%nat with (S n) by lia.
    case_bool_decide as Hlt.
    + split; [lia|]. split.
      * intros i Hi. destruct (decide (i = S n)) as [->|]; [lia|].
        specialize (Hmax i ltac:(lia)). lia.
      * intros i Hi. specialize (Hmax i ltac:(lia)). lia.
    + split; [lia|]. split; [|done].
      intros i Hi. destruct (decide (i = S n)) as [->|]; [lia|].
      apply Hmax. lia.
Qed.

(** The best hour is an hour of the day at which the calls are at their
    maximum, and the earliest such hour. *)
Theorem bestHour_is_first_maximum (hourly : list nat) :
  (bestHour hourly < 24)%nat
  ∧ (∀ i, at_hour hourly i ≤ at_hour hourly (bestHour hourly) ∨ 24 ≤ i)%nat
  ∧ (∀ i, i < bestHour hourly → at_hour hourly i < at_hour hourly (bestHour hourly))%nat.
Proof.
  unfold bestHour.
  destruct (bestHour_upto hourly 23) as (Hb & Hmax & Hfirst).
  revert Hb Hmax Hfirst. generalize (best_upto hourly 23) as best.
  intros best Hb Hmax Hfirst.
  split; [lia|]. split; [|exact Hfirst].
  intros i. destruct (decide (i ≤ 23)%nat) as [Hi|Hi]; [left; exact (Hmax i Hi)|right; lia].
Qed.

End Counts.

(** ** Analytics: the agents *)

Section Agents.

Lemma agent_record_consistent (r : record) (a : agent_row) :
  (a_booked a + a_notInterested a + a_hungUp a + a_voicemail a + a_callback a
   + a_noAnswer a + a_renter a ≤ a_calls a)%nat →
  (length (a_durations a) ≤ a_calls a)%nat →
  row_consistent (agent_record r a).
Proof.
  intros Hsum Hlen. unfold row_consistent, agent_record, when. simpl.
  split; [|split; [|lia]].
  - repeat case_decide; try lia; congruence.
  - destruct (probedDuration r) as [d|]; [|lia].
    case_bool_decide; [rewrite length_app; simpl|]; lia.
Qed.

Lemma agentCounts_snoc (all : list record) (r : record) :
  agentCounts (all ++ [r]) = agentCounts all ≫= λ m, agent_step m r.
Proof. unfold agentCounts. by rewrite foldl_snoc. Qed.

Lemma agentCounts_rows (all : list record) (m : gmap string agent_row) :
  agentCounts all = Some m →
  ∀ agent,
    match m !! agent with
    | Some a =>
        row_consistent a
        ∧ a_calls a
          = how_many (λ r, bool_decide (or_str (agentName r) "Unknown" = agent)) all
        ∧ agent ∉ inherited
    | None =>
        agent ∈ inherited
        ∨ how_many (λ r, bool_decide (or_str (agentName r) "Unknown" = agent)) all = 0%nat
    end.
Proof.
  revert m. induction all as [|r all IH] using rev_ind; intros m Hm agent.
  { injection Hm as <-. rewrite lookup_empty. by right. }
  rewrite agentCounts_snoc in Hm.
  destruct (agentCounts all) as [m0|]; [|done]. simpl in Hm.
  specialize (IH m0 eq_refl agent).
  unfold how_many in *. rewrite List.filter_app, length_app. simpl.
  unfold agent_step in Hm. cbv zeta in Hm.
  destruct (decide (or_str (agentName r) "Unknown" ∈ inherited)) as [Hin|Hin].
  - destruct (positive_duration r); [done|]. injection Hm as <-.
    destruct (decide (or_str (agentName r) "Unknown" = agent)) as [Hk|Hk].
    + rewrite Hk in Hin. destruct (m0 !! agent); [|by left].
      by destruct IH as (_ & _ & ?).
    + rewrite bool_decide_eq_false_2 by done. simpl. by rewrite Nat.add_0_r.
  - injection Hm as <-.
    destruct (decide (or_str (agentName r) "Unknown" = agent)) as [Hk|Hk].
    + rewrite Hk in *. rewrite lookup_insert_eq, bool_decide_eq_true_2 by done.
      destruct (m0 !! agent) as [a0|]; simpl.
      * destruct IH as ((H1 & H2 & H3) & H4 & H5).
        split; [by apply agent_record_consistent|]. split; [simpl; lia|done].
      * destruct IH as [?|Hz]; [done|].
        split; [apply agent_record_consistent; simpl; lia|].
        split; [simpl; lia|done].
    + rewrite lookup_insert_ne, bool_decide_eq_false_2 by done. simpl.
      by rewrite Nat.add_0_r.
Qed.

(** When the loop over the records has not thrown, every row of the
    per-agent breakdown stands for an agent with at least one record and
    counts the records of that agent, a record without agent name going to
    "Unknown".  Its contacted count is the calls less the voicemails and
    the unanswered; it lies between the booked count and the calls, so
    that neither rate leaves 0..100 percent, and the contact rate is never
    the fallback.  No row stands under the empty name or under a name that
    every object inherits. *)
Theorem agent_rows_consistent (all : list record) (rows : gmap string agent_stats)
    (agent : string) (st : agent_stats) :
  agentBreakdown all = Some rows →
  rows !! agent = Some st →
  calls st = how_many (λ r, bool_decide (or_str (agentName r) "Unknown" = agent)) all
  ∧ (1 ≤ calls st)%nat
  ∧ Z.of_nat (booked st) ≤ contacted st ≤ Z.of_nat (calls st)
  ∧ contactRate st = ToFixed1 (contacted st) (Z.of_nat (calls st)) 100
  ∧ agent ≠ ""
  ∧ agent ∉ inherited.
Proof.
  unfold agentBreakdown. intros Hrows H.
  destruct (agentCounts all) as [m|] eqn:Em; [|done].
  injection Hrows as <-. rewrite lookup_fmap in H.
  pose proof (agentCounts_rows all m Em agent) as Hrow.
  destruct (m !! agent) as [a|]; [|done].
  simpl in H. injection H as <-.
  destruct Hrow as ((Hsum & Hlen & Hone) & Hcalls & Hown).
  simpl. split; [done|]. split; [done|]. split; [lia|]. split; [|split; [|done]].
  - by rewrite bool_decide_eq_true_2 by lia.
  - intros ->. unfold how_many in Hcalls.
    assert (List.filter (λ r, bool_decide (or_str (agentName r) "Unknown" = "")) all = [])
      as Hnil.
    { clear. induction all as [|r all IH]; [done|]. simpl.
      rewrite bool_decide_eq_false_2; [done|].
      unfold or_str. by case_decide. }
    rewrite Hnil in Hcalls. simpl in Hcalls. lia.
Qed.

(** Two calls of one agent, one booked and one to the voicemail. *)
Lemma agent_rows_consistent_witness :
  Z.of_nat 1 ≤ 1 ≤ Z.of_nat 2.
Proof.
  refine (proj1 (proj2 (proj2 (agent_rows_consistent
    [fetched (RawRecord "rec1" {["Call Outcome" := VStr "BOOKED"]});
     fetched (RawRecord "rec2" {["Call Outcome" := VStr "VOICEMAIL"]})]
    {["Unknown" := AgentStats 2 1 1 (ToFixed1 1 2 100) (ToFixed1 1 1 100) 0]}
    "Unknown"
    (AgentStats 2 1 1 (ToFixed1 1 2 100) (ToFixed1 1 1 100) 0) _ _)))).
  - vm_compute. reflexivity.
  - vm_compute. reflexivity.
Defined.

End Agents.

(** ** The CSV export *)

Section Csv.

Local Arguments String.append : simpl nomatch.

Lemma append_assoc (a b c : string) : (a +:+ b) +:+ c = a +:+ (b +:+ c).
Proof. induction a as [|x a IH]; simpl; [done|]. by rewrite IH. Qed.

Lemma cell_body_esc (v rest : string) :
  (∀ r, rest ≠ String dquote r) →
  cell_body (double_quotes v +:+ String dquote rest) = Some (v, rest).
Proof.
  intros Hrest. induction v as [|a v IH]; simpl.
  - destruct rest as [|b r]; [done|].
    destruct (Ascii.eqb_spec b dquote) as [->|_]; [by destruct (Hrest r)|done].
  - destruct (Ascii.eqb_spec a dquote) as [->|Ha]; simpl.
    + by rewrite IH.
    + destruct (Ascii.eqb_spec a dquote); [done|]. by rewrite IH.
Qed.

Lemma esc_then (c : value) (tail : string) :
  esc c +:+ tail = String dquote (double_quotes (String_ c) +:+ String dquote tail).
Proof. unfold esc. simpl. f_equal. by rewrite append_assoc. Qed.

Lemma read_cells_line (cells : list value) :
  cells ≠ [] → read_cells (length cells) (csv_line cells) = Some (map String_ cells).
Proof.
  unfold csv_line. induction cells as [|c cells IH]; [done|]. intros _.
  destruct cells as [|c' cells].
  - change (String.concat "," (map esc [c])) with (esc c). unfold esc.
    cbn [length read_cells]. change (Ascii.eqb dquote dquote) with true. cbv iota.
    rewrite (cell_body_esc (String_ c) EmptyString) by done. done.
  - specialize (IH ltac:(done)).
    change (String.concat "," (map esc (c :: c' :: cells)))
      with (esc c +:+ "," +:+ String.concat "," (map esc (c' :: cells))).
    rewrite esc_then.
    change (length (c :: c' :: cells)) with (S (length (c' :: cells))).
    remember (c' :: cells) as tl eqn:Htl.
    remember (String.concat "," (map esc tl)) as line eqn:Hline.
    cbn [read_cells]. change (Ascii.eqb dquote dquote) with true. cbv iota.
    change ("," +:+ line) with (String "," line).
    rewrite cell_body_esc by done.
    destruct (length tl) eqn:El; [by subst tl|].
    change (Ascii.eqb "," ",") with true. cbv iota.
    rewrite IH. done.
Qed.

(** The export has a header and then a row for each record, in the order of
    the snapshot.  Every row is fourteen quoted cells, and reading a row
    back -- a doubled quote for a quote, a comma ending a cell only outside
    the quotes -- gives the string forms of the fourteen values as they
    were, whatever commas, quotes or line breaks they contain. *)
Theorem csv_rows_read_back (all : list record) :
  length (csv_rows all) = S (length all)
  ∧ csv_rows all !! 0%nat = Some (String.concat "," csv_headers)
  ∧ (∀ i r, all !! i = Some r →
       ∃ line, csv_rows all !! S i = Some line
               ∧ read_cells 14 line = Some (map String_ (csv_cells r)))
  ∧ (∀ cells, cells ≠ [] →
       read_cells (length cells) (csv_line cells) = Some (map String_ cells)).
Proof.
  split; [|split; [done|split; [|apply read_cells_line]]].
  - unfold csv_rows. simpl. by rewrite length_map.
  - intros i r Hi. exists (csv_line (csv_cells r)). split.
    + unfold csv_rows. simpl.
      revert i Hi. induction all as [|x all IH]; intros i Hi; [done|].
      destruct i as [|i]; simpl in *; [by simplify_eq|by apply IH].
    + by apply (read_cells_line (csv_cells r)).
Qed.

(** A row whose notes hold a comma, quotes and a line break. *)
Lemma csv_rows_read_back_witness :
  read_cells (length [VStr "Ada"; VNum 42; VStr awkward_notes])
             (csv_line [VStr "Ada"; VNum 42; VStr awkward_notes])
  = Some (map String_ [VStr "Ada"; VNum 42; VStr awkward_notes]).
Proof.
  refine (proj2 (proj2 (proj2 (csv_rows_read_back [])))
            [VStr "Ada"; VNum 42; VStr awkward_notes] _).
  discriminate.
Defined.

End Csv.

(** ** Call analysis *)

Section CallAnalysis.

Lemma how_many_le (p q : record → bool) (l : list record) :
  (∀ r, p r = true → q r = true) → (how_many p l ≤ how_many q l)%nat.
Proof.
  intros H. unfold how_many. induction l as [|r l IH]; simpl; [lia|].
  destruct (p r) eqn:E.
  - rewrite (H r E). simpl. lia.
  - destruct (q r); simpl; lia.
Qed.

(** The metrics of a day are absent exactly when no record was called on
    that day.  Otherwise the total is the number of records called on the
    day, the booked count the number of them whose outcome is BOOKED, and
    booked is at most contacted, contacted at most the total: no rate
    exceeds 100 percent. *)
Theorem call_metrics_ordered (targetDate : string) (all : list record) :
  match call_metrics targetDate all with
  | None => ∀ r, r ∈ all → on_day targetDate r = false
  | Some m =>
      m_total m = how_many (on_day targetDate) all
      ∧ (0 < m_total m)%nat
      ∧ m_booked m
        = how_many (λ r, on_day targetDate r && bool_decide (callOutcome r = "BOOKED")) all
      ∧ (m_booked m ≤ m_contacted m ≤ m_total m)%nat
  end.
Proof.
  unfold call_metrics. cbv zeta.
  set (day := List.filter (on_day targetDate) all).
  case_bool_decide as Hz.
  - intros r Hr. destruct (on_day targetDate r) eqn:E; [|done].
    assert (Hin : In r day).
    { apply filter_In. split; [by apply list_elem_of_In|done]. }
    destruct day; [done|discriminate Hz].
  - simpl.
    assert (Hb : count_at (tally (λ r, or_str (callOutcome r) "UNKNOWN") day) "BOOKED"
                 = how_many (λ r, bool_decide (callOutcome r = "BOOKED")) day).
    { unfold count_at. rewrite tally_lookup.
      assert (Hext : how_many (λ r, bool_decide (or_str (callOutcome r) "UNKNOWN" = "BOOKED")) day
                     = how_many (λ r, bool_decide (callOutcome r = "BOOKED")) day).
      { unfold how_many. f_equal. apply List.filter_ext. intros r.
        unfold or_str. case_decide as He; [|done].
        rewrite He. done. }
      rewrite Hext. unfold tallied_of. case_decide; [done|].
      rewrite decide_False by done. rewrite decide_False; [done|].
      apply (bool_decide_unpack _). vm_compute. exact I. }
    rewrite Hb. split; [done|]. split; [lia|]. split; [|split].
    + subst day. unfold how_many. by rewrite filter_twice.
    + change (length (List.filter was_contacted day)) with (how_many was_contacted day).
      apply how_many_le. intros r Hr. apply bool_decide_eq_true in Hr.
      unfold was_contacted. by rewrite Hr.
    + apply List.filter_length_le.
Qed.

End CallAnalysis.

Section Sample.

Lemma group_of_push (o o' : string) (r : record) (G : list (string * list record)) :
  group_of o' (push o r G)
  = if decide (o' = o) then group_of o G ++ [r] else group_of o' G.
Proof.
  unfold group_of. induction G as [|[k rs] G IH]; simpl.
  - destruct (decide (o' = o)) as [->|Hne].
    + by rewrite bool_decide_eq_true_2.
    + rewrite bool_decide_eq_false_2; [done|congruence].
  - destruct (decide (k = o)) as [->|Hk]; simpl.
    + destruct (decide (o' = o)) as [->|Hne].
      * by rewrite !bool_decide_eq_true_2.
      * rewrite !bool_decide_eq_false_2 by congruence. done.
    + destruct (bool_decide_reflect (k = o')) as [<-|Hne].
      * rewrite decide_False by done. done.
      * rewrite (bool_decide_eq_false_2 (k = o)) by done. apply IH.
Qed.

Lemma push_keys (o : string) (r : record) (G : list (string * list record)) :
  (o ∈ map fst G ∧ map fst (push o r G) = map fst G)
  ∨ (o ∉ map fst G ∧ map fst (push o r G) = map fst G ++ [o]).
Proof.
  induction G as [|[k rs] G IH].
  - right. split; [apply not_elem_of_nil|done].
  - cbn [push]. destruct (decide (k = o)) as [->|Hk].
    + left. split; [apply list_elem_of_here|done].
    + destruct IH as [[Hin Heq]|[Hin Heq]]; [left|right].
      * split; [by apply list_elem_of_further|]. cbn [map fst]. by rewrite Heq.
      * split; [|cbn [map fst app]; by rewrite Heq].
        cbn [map fst]. rewrite elem_of_cons. intros [?|?]; [congruence|done].
Qed.

Lemma byOutcome_snoc (day : list record) (r : record) :
  byOutcome (day ++ [r])
  = byOutcome day ≫= λ g,
      if decide (outcome_key r ∈ inherited) then None
      else Some (push (outcome_key r) r g).
Proof. unfold byOutcome. by rewrite foldl_snoc. Qed.

Lemma byOutcome_Some (day : list record) (G : list (string * list record)) :
  byOutcome day = Some G →
  (∀ r, r ∈ day → outcome_key r ∉ inherited)
  ∧ NoDup (map fst G)
  ∧ ∀ o, group_of o G = List.filter (has_outcome o) day.
Proof.
  revert G. induction day as [|r day IH] using rev_ind; intros G HG.
  { injection HG as <-. split; [by intros r Hr%elem_of_nil|].
    split; [constructor|done]. }
  rewrite byOutcome_snoc in HG.
  destruct (byOutcome day) as [G0|]; [|done]. simpl in HG.
  destruct (decide (outcome_key r ∈ inherited)) as [|Hown]; [done|].
  injection HG as <-. destruct (IH G0 eq_refl) as (Hday & Hnd & Hgroup).
  split; [|split].
  - intros x Hx. apply elem_of_app in Hx as [Hx|Hx]; [by apply Hday|].
    by apply list_elem_of_singleton in Hx as ->.
  - destruct (push_keys (outcome_key r) r G0) as [[Hin ->]|[Hin ->]]; [done|].
    apply NoDup_app. split; [done|]. split; [|apply NoDup_singleton].
    intros x Hx Hx'. by apply list_elem_of_singleton in Hx' as ->.
  - intros o. rewrite group_of_push, List.filter_app, !Hgroup.
    cbn [List.filter].
    destruct (decide (o = outcome_key r)) as [->|Hne].
    + assert (has_outcome (outcome_key r) r = true) as ->; [|done].
      by apply bool_decide_eq_true_2.
    + assert (has_outcome o r = false) as ->; [|by rewrite app_nil_r].
      apply bool_decide_eq_false_2. congruence.
Qed.

Lemma byOutcome_None (day : list record) :
  byOutcome day = None → ∃ r, r ∈ day ∧ outcome_key r ∈ inherited.
Proof.
  induction day as [|r day IH] using rev_ind; [done|].
  rewrite byOutcome_snoc. intros H.
  destruct (byOutcome day) as [G0|].
  - simpl in H. case_decide as Hin; [|done].
    exists r. split; [|done]. apply elem_of_app. right. apply list_elem_of_here.
  - destruct (IH eq_refl) as (x & Hx & Hin). exists x.
    split; [|done]. apply elem_of_app. by left.
Qed.

Lemma group_of_member (G : list (string * list record)) (g : string * list record) :
  NoDup (map fst G) → g ∈ G → group_of g.1 G = g.2.
Proof.
  unfold group_of. induction G as [|[k rs] G IH]; intros Hnd Hg.
  - by apply elem_of_nil in Hg.
  - simpl in Hnd. apply NoDup_cons in Hnd as [Hk Hnd]. simpl.
    apply elem_of_cons in Hg as [->|Hg].
    + simpl. by rewrite bool_decide_eq_true_2.
    + rewrite bool_decide_eq_false_2; [by apply IH|].
      intros ->. apply Hk. apply list_elem_of_In, in_map_iff.
      exists g. split; [done|by apply list_elem_of_In].
Qed.

Lemma group_of_found (G : list (string * list record)) (o : string) :
  group_of o G ≠ [] → ∃ g, g ∈ G ∧ g.1 = o ∧ g.2 = group_of o G.
Proof.
  unfold group_of. destruct (List.find _ G) as [g|] eqn:E; [|done].
  intros _. apply find_some in E as [Hin Ho]. exists g.
  split; [by apply list_elem_of_In|]. split; [|done].
  by apply bool_decide_eq_true in Ho.
Qed.

Lemma filter_split {A} (p : A → bool) (l : list A) :
  List.filter p l ++ List.filter (λ x, negb (p x)) l ≡ₚ l.
Proof.
  induction l as [|x l IH]; simpl; [done|].
  destruct (p x); simpl.
  - by rewrite IH.
  - by rewrite <- Permutation_middle, IH.
Qed.

Lemma entries_perm (G : list (string * list record)) : entries G ≡ₚ G.
Proof. unfold entries. rewrite sort_perm. apply filter_split. Qed.

Lemma how_many_none (p : record → bool) (l : list record) :
  (∀ r, r ∈ l → p r = false) → how_many p l = 0%nat.
Proof.
  unfold how_many. induction l as [|r l IH]; intros H; [done|]. simpl.
  rewrite (H r) by apply list_elem_of_here.
  apply IH. intros x Hx. apply H. by apply list_elem_of_further.
Qed.

Lemma how_many_app (p : record → bool) (l k : list record) :
  how_many p (l ++ k) = (how_many p l + how_many p k)%nat.
Proof. unfold how_many. by rewrite List.filter_app, length_app. Qed.

Lemma how_many_take (p : record → bool) (n : nat) (l : list record) :
  (how_many p (take n l) ≤ how_many p l)%nat ∧ (how_many p (take n l) ≤ n)%nat.
Proof.
  unfold how_many. split.
  - rewrite <- (take_drop n l) at 2. rewrite List.filter_app, length_app. lia.
  - etrans; [apply List.filter_length_le|]. rewrite length_take. lia.
Qed.

Lemma elem_of_take {A} (x : A) (n : nat) (l : list A) : x ∈ take n l → x ∈ l.
Proof.
  intros Hx. rewrite <- (take_drop n l). apply elem_of_app. by left.
Qed.

Lemma five_each_in (G : list (string * list record)) (r : record) :
  r ∈ five_each G ↔ ∃ g, g ∈ G ∧ g.1 ≠ "BOOKED" ∧ r ∈ take 5 g.2.
Proof.
  unfold five_each. rewrite list_elem_of_In, in_flat_map. split.
  - intros (g & Hg & Hr). exists g. case_decide; [done|].
    split; [by apply list_elem_of_In|]. split; [done|by apply list_elem_of_In].
  - intros (g & Hg & Hb & Hr). exists g. split; [by apply list_elem_of_In|].
    rewrite decide_False by done. by apply list_elem_of_In.
Qed.

Lemma five_each_count (G : list (string * list record)) (o : string) :
  NoDup (map fst G) →
  (∀ g r, g ∈ G → r ∈ g.2 → outcome_key r = g.1) →
  (how_many (has_outcome o) (five_each G) ≤ 5)%nat.
Proof.
  induction G as [|g G IH]; intros Hnd Hkey; [simpl; unfold how_many; simpl; lia|].
  simpl in Hnd. apply NoDup_cons in Hnd as [Hg Hnd].
  change (five_each (g :: G))
    with ((if decide (g.1 = "BOOKED") then [] else take 5 g.2) ++ five_each G).
  rewrite how_many_app.
  assert (Htail : ∀ x r, x ∈ G → r ∈ x.2 → outcome_key r = x.1).
  { intros x r Hx. apply Hkey. by apply list_elem_of_further. }
  destruct (decide (g.1 = o)) as [Ho|Ho].
  - assert (how_many (has_outcome o) (five_each G) = 0%nat) as ->.
    { apply how_many_none. intros r Hr.
      apply five_each_in in Hr as (x & Hx & _ & Hrx). apply elem_of_take in Hrx.
      unfold has_outcome. apply bool_decide_eq_false_2.
      rewrite (Htail x r Hx Hrx). intros Heq. apply Hg. rewrite Ho, <- Heq.
      apply list_elem_of_In, in_map_iff. exists x. split; [done|by apply list_elem_of_In]. }
    case_decide; [unfold how_many; simpl; lia|].
    pose proof (how_many_take (has_outcome o) 5 g.2). lia.
  - assert (how_many (has_outcome o)
              (if decide (g.1 = "BOOKED") then [] else take 5 g.2) = 0%nat) as ->.
    { apply how_many_none. intros r Hr. case_decide; [by apply elem_of_nil in Hr|].
      unfold has_outcome. apply bool_decide_eq_false_2.
      rewrite (Hkey g r); [done|apply list_elem_of_here|by eapply elem_of_take]. }
    simpl. by apply IH.
Qed.

Lemma filter_has_outcome (o : string) (day : list record) (r : record) :
  r ∈ List.filter (has_outcome o) day ↔ r ∈ day ∧ outcome_key r = o.
Proof.
  rewrite !list_elem_of_In, filter_In. unfold has_outcome.
  by rewrite bool_decide_eq_true.
Qed.

(** The sample of calls handed to the analysis.  Building it throws
    exactly when a call of the day has an outcome that names a property
    every object inherits.  Otherwise the sample has at most 50 records,
    all of them calls of the day with a transcript of more than 100
    characters and at least 30 seconds; it opens with the booked calls in
    the order of the snapshot, all of them when they are not more than 50;
    of every other outcome it holds at most five; and it is not empty
    when the day has such calls. *)
Theorem sample_is_bounded (targetDate : string) (all : list record) :
  match finalSample (dayRecords targetDate all) with
  | None => ∃ r, r ∈ dayRecords targetDate all ∧ outcome_key r ∈ inherited
  | Some sample =>
      (∀ r, r ∈ dayRecords targetDate all → outcome_key r ∉ inherited)
      ∧ (length sample ≤ 50)%nat
      ∧ (∀ r, r ∈ sample → r ∈ all ∧ substantial targetDate r = true)
      ∧ (∀ o, o ≠ "BOOKED" → how_many (has_outcome o) sample ≤ 5)%nat
      ∧ (dayRecords targetDate all ≠ [] → sample ≠ [])
      ∧ ∃ rest,
          sample
          = take 50 (List.filter (λ r, bool_decide (callOutcome r = "BOOKED"))
                                 (dayRecords targetDate all) ++ rest)
          ∧ Forall (λ r, callOutcome r ≠ "BOOKED") rest
  end.
Proof.
  set (day := dayRecords targetDate all). unfold finalSample.
  destruct (byOutcome day) as [G|] eqn:EG; simpl; [|by apply byOutcome_None].
  destruct (byOutcome_Some day G EG) as (Hown & Hnd & Hgroup).
  rewrite Hgroup.
  assert (Hnd' : NoDup (map fst (entries G))).
  { eapply NoDup_Permutation_proper; [|exact Hnd].
    apply Permutation_map, entries_perm. }
  assert (Hkey : ∀ g r, g ∈ entries G → r ∈ g.2 → r ∈ day ∧ outcome_key r = g.1).
  { intros g r Hg Hr. rewrite entries_perm in Hg.
    rewrite <- (group_of_member G g Hnd Hg), Hgroup in Hr.
    by apply filter_has_outcome. }
  split; [done|]. split; [rewrite length_take; lia|]. split; [|split; [|split]].
  - intros r Hr. apply elem_of_take in Hr.
    assert (Hday : r ∈ day).
    { apply elem_of_app in Hr as [Hr|Hr].
      - by apply filter_has_outcome in Hr as [? _].
      - apply five_each_in in Hr as (g & Hg & _ & Hrg). apply elem_of_take in Hrg.
        by destruct (Hkey g r Hg Hrg). }
    apply list_elem_of_In, filter_In in Hday as [Hin Hs].
    split; [by apply list_elem_of_In|done].
  - intros o Ho.
    pose proof (how_many_take (has_outcome o) 50
                  (List.filter (has_outcome "BOOKED") day ++ five_each (entries G)))
      as [Hle _].
    rewrite how_many_app in Hle.
    assert (how_many (has_outcome o) (List.filter (has_outcome "BOOKED") day) = 0%nat)
      as Hz.
    { apply how_many_none. intros r Hr. apply filter_has_outcome in Hr as [_ Hr].
      unfold has_outcome. apply bool_decide_eq_false_2. congruence. }
    pose proof (five_each_count (entries G) o Hnd'
                  (λ g r Hg Hr, proj2 (Hkey g r Hg Hr))).
    lia.
  - intros Hday.
    assert (Hsome : ∃ r, r ∈ List.filter (has_outcome "BOOKED") day
                               ++ five_each (entries G)).
    { destruct day as [|r day'] eqn:Eday; [done|]. rewrite <- Eday in *.
      assert (Hr : r ∈ day) by (rewrite Eday; apply list_elem_of_here).
      destruct (decide (outcome_key r = "BOOKED")) as [Hb|Hb].
      - exists r. apply elem_of_app. left. by apply filter_has_outcome.
      - assert (Hne : group_of (outcome_key r) G ≠ []).
        { rewrite Hgroup. intros Hnil.
          assert (Hin : r ∈ List.filter (has_outcome (outcome_key r)) day)
            by (by apply filter_has_outcome).
          rewrite Hnil in Hin. by apply elem_of_nil in Hin. }
        destruct (group_of_found G _ Hne) as (g & Hg & Ho & Hrs).
        destruct g.2 as [|x rs] eqn:Egs; [by rewrite <- Hrs in Hne|].
        exists x. apply elem_of_app. right. apply five_each_in.
        exists g. rewrite entries_perm. split; [done|].
        split; [congruence|]. rewrite Egs. apply list_elem_of_here. }
    destruct Hsome as [r Hr].
    destruct (List.filter _ day ++ five_each (entries G)); [by apply elem_of_nil in Hr|].
    done.
  - exists (five_each (entries G)). split.
    + do 2 f_equal. apply List.filter_ext. intros r.
      unfold has_outcome, outcome_key, or_str.
      case_decide as He; [|done]. rewrite He. done.
    + apply Forall_forall. intros r Hr.
      apply five_each_in in Hr as (g & Hg & Hb & Hrg). apply elem_of_take in Hrg.
      destruct (Hkey g r Hg Hrg) as [_ Hk]. intros Hco. apply Hb.
      rewrite <- Hk. unfold outcome_key, or_str. by rewrite Hco.
Qed.

End Sample.
